(** * SystemwideEQ: the DSP core of the parametric equaliser

    A shallow embedding of [equaliser/dsp/filters.py] and
    [equaliser/dsp/engine.py]: the band descriptor, the peaking-filter
    coefficient designer, the per-channel biquad, the filter chain and the
    engine with bypass, gain staging and RMS metering.

    The Python code computes on IEEE-754 doubles, keeps the biquad delay
    registers in a [float32] array and receives [float32] blocks from the
    audio callback.  The embedding is written once over an interface of
    floating-point operations ([Arith], [Libm]) and is instantiated twice:
    - [IEEE]: binary64 arithmetic of the Standard Library's [SpecFloat],
      with the rounding to binary32 written out; it evaluates.
    - [Ideal]: the real numbers, where no operation rounds.

    NumPy arrays are mutable and passed by reference, so the engine is
    modelled over a store of arrays addressed by location. *)

From Stdlib Require Import ZArith QArith Reals Lra Lia String SpecFloat.
From stdpp Require Import base list.

Local Open Scope Z_scope.

(** ** Floating-point interface *)

(** The operations the source applies to [float] / [np.float64] values.
    [cast32] is the rounding of a double to [np.float32] (the result read
    back as a double); [is_nan] and [fltb] are what comparisons observe. *)
Class Arith (F : Type) := {
  of_Z : Z -> F;
  fadd : F -> F -> F;
  fsub : F -> F -> F;
  fmul : F -> F -> F;
  fdiv : F -> F -> F;
  fsqrt : F -> F;
  fltb : F -> F -> bool;
  is_nan : F -> bool;
  cast32 : F -> F;
}.

(** The library functions the source calls: [np.pi], [np.sin], [np.cos]
    and Python's float power [x ** y]. *)
Class Libm (F : Type) := {
  fpi : F;
  fsin : F -> F;
  fcos : F -> F;
  fpow : F -> F -> F;
}.

Declare Scope fl_scope.
Delimit Scope fl_scope with fl.
Infix "+" := fadd : fl_scope.
Infix "-" := fsub : fl_scope.
Infix "*" := fmul : fl_scope.
Infix "/" := fdiv : fl_scope.
Infix "<?" := fltb : fl_scope.

Section Numeric.
Context {F : Type} `{Arith F}.

(** A decimal literal of the source, such as [2.1]: the quotient of two
    small integers, correctly rounded. *)
Definition lit (q : Q) : F := (of_Z (Qnum q) / of_Z (Zpos (Qden q)))%fl.

(** NumPy's [clip] on floats is [min(max(x, lo), hi)], where [max] and
    [min] return their first argument when it is a NaN. *)
Definition np_max (a b : F) : F :=
  if is_nan a then a else if (b <? a)%fl then a else b.

Definition np_min (a b : F) : F :=
  if is_nan a then a else if (a <? b)%fl then a else b.

Definition np_clip (x lo hi : F) : F := np_min (np_max x lo) hi.

(** Python's builtin [max(a, b)]: [b] replaces [a] only when [b > a]. *)
Definition py_max (a b : F) : F := if (a <? b)%fl then b else a.
End Numeric.

(** ** IEEE-754 instance *)

Module IEEE.
Definition prec64 : Z := 53.
Definition emax64 : Z := 1024.
Definition prec32 : Z := 24.
Definition emax32 : Z := 128.

Definition signed (s : bool) (m : positive) : Z := cond_Zopp s (Zpos m).

(** The canonical binary64 representation of a value (exact whenever the
    value is a double, in particular for every binary32 value). *)
Definition to_b64 (x : spec_float) : spec_float :=
  match x with
  | S754_finite s m e => binary_normalize prec64 emax64 (signed s m) e s
  | _ => x
  end.

(** Round to the nearest binary32 value, ties to even. *)
Definition to_b32 (x : spec_float) : spec_float :=
  match x with
  | S754_finite s m e => binary_normalize prec32 emax32 (signed s m) e s
  | _ => x
  end.

Definition b64_of_Z (z : Z) : spec_float :=
  binary_normalize prec64 emax64 z 0 false.

Definition b64_is_nan (x : spec_float) : bool :=
  match x with S754_nan => true | _ => false end.

#[global] Instance arith : Arith spec_float := {|
  of_Z := b64_of_Z;
  fadd := SFadd prec64 emax64;
  fsub := SFsub prec64 emax64;
  fmul := SFmul prec64 emax64;
  fdiv := SFdiv prec64 emax64;
  fsqrt := SFsqrt prec64 emax64;
  fltb := SFltb;
  is_nan := b64_is_nan;
  cast32 := fun x => to_b64 (to_b32 x);
|}.

(** A well-formed double: the mantissa is canonical for its exponent
    and the exponent is in range. *)
Definition b64_valid (x : spec_float) : Prop :=
  valid_binary prec64 emax64 x = true.

Definition b64_is_zero (x : spec_float) : Prop :=
  match x with S754_zero _ => True | _ => False end.

(** A finite or infinite value of sign [s]. *)
Definition signed_result (s : bool) (x : spec_float) : Prop :=
  match x with
  | S754_finite s' _ _ | S754_infinity s' => s' = s
  | _ => False
  end.
End IEEE.

(** ** Ideal instance: real arithmetic, nothing rounds, there is no NaN *)

Module Ideal.
Definition Rltb (x y : R) : bool := if Rlt_dec x y then true else false.

#[global] Instance arith : Arith R := {|
  of_Z := IZR;
  fadd := Rplus;
  fsub := Rminus;
  fmul := Rmult;
  fdiv := Rdiv;
  fsqrt := sqrt;
  fltb := Rltb;
  is_nan := fun _ => false;
  cast32 := fun x => x;
|}.

#[global] Instance libm : Libm R := {|
  fpi := PI;
  fsin := sin;
  fcos := cos;
  fpow := Rpower;
|}.
End Ideal.

(** ** Errors *)

(** Every [raise] of the DSP core is a [ValueError]; the message tells the
    raise sites apart. *)
Inductive error := ValueError (msg : string).

(** [inl e]: the call raised [e]; [inr v]: it returned [v]. *)
Definition result (A : Type) : Type := error + A.

Definition raise {A : Type} (e : error) : result A := inl e.
Definition ret {A : Type} (v : A) : result A := inr v.

Definition bind {A B : Type} (r : result A) (k : A -> result B) : result B :=
  match r with
  | inl e => inl e
  | inr v => k v
  end.

Notation "'let!' x ':=' r 'in' k" := (bind r (fun x => k))
  (at level 10, x pattern, r at level 100, k at level 200).

(** [[g(x) for x in xs]] when [g] can raise: the first raise aborts. *)
Fixpoint traverse {A B : Type} (g : A -> result B) (xs : list A) : result (list B) :=
  match xs with
  | [] => ret []
  | x :: xs' => let! y := g x in let! ys := traverse g xs' in ret (y :: ys)
  end.

Definition msg_channels : string := "BiquadFilter needs at least one channel".
Definition msg_coefficients : string := "BiquadFilter expects (3,) coefficient arrays".
Definition msg_block_2d : string := "Audio block must be 2-D (frames, channels)".
Definition msg_channel_mismatch : string := "Audio block channel mismatch".
Definition msg_engine_shape : string := "Expected audio block shaped (frames, channels)".


Definition ShapeMismatch (e : error) : Prop :=
  e = ValueError msg_block_2d \/ e = ValueError msg_channel_mismatch
  \/ e = ValueError msg_engine_shape.

(** ** NumPy arrays *)

Inductive dtype := Float32 | Float64.

Section Arrays.
Context {F : Type} `{Arith F}.

(** Storing a double into an array of the given dtype. *)
Definition cast (dt : dtype) (x : F) : F :=
  match dt with
  | Float32 => cast32 x
  | Float64 => x
  end.

(** Floating-point arrays of rank 1 and rank 2.  [Array2 dt c rows] has
    shape [(length rows, c)]; [c] is kept apart because an audio block
    may have no frame.  The source treats every rank other than 2 the way
    it treats rank 1 (it only reads [ndim]). *)
Inductive ndarray :=
| Array1 (dt : dtype) (xs : list F)
| Array2 (dt : dtype) (cols : nat) (rows : list (list F)).

Definition ndim (a : ndarray) : nat :=
  match a with Array1 _ _ => 1%nat | Array2 _ _ _ => 2%nat end.

Definition dtype_of (a : ndarray) : dtype :=
  match a with Array1 dt _ => dt | Array2 dt _ _ => dt end.

(** All the elements, in row-major order. *)
Definition flat (a : ndarray) : list F :=
  match a with
  | Array1 _ xs => xs
  | Array2 _ _ rows => concat rows
  end.

(** [a.size] *)
Definition size (a : ndarray) : nat :=
  match a with
  | Array1 _ xs => length xs
  | Array2 _ cols rows => (length rows * cols)%nat
  end.

(** An elementwise operation whose result has the dtype and shape of [a]. *)
Definition amap (g : F -> F) (a : ndarray) : ndarray :=
  match a with
  | Array1 dt xs => Array1 dt (map g xs)
  | Array2 dt cols rows => Array2 dt cols (map (map g) rows)
  end.

(** Every row has [cols] entries and every entry is a value of the dtype. *)
Definition wf_array (a : ndarray) : Prop :=
  Forall (fun x => cast (dtype_of a) x = x) (flat a) /\
  match a with
  | Array1 _ _ => True
  | Array2 _ cols rows => Forall (fun row => length row = cols) rows
  end.

(** [np.square(a)]: computed in the dtype of [a]. *)
Definition np_square (a : ndarray) : ndarray :=
  amap (fun x => cast (dtype_of a) (x * x)%fl) a.

(** [np.mean(a, dtype=np.float64)]: the elements are added up in double
    precision and the sum is divided by the element count.  NumPy chooses
    the order of the additions; they are taken left to right here. *)
Definition np_mean64 (a : ndarray) : F :=
  (fold_left fadd (flat a) (of_Z 0) / of_Z (Z.of_nat (size a)))%fl.

(** [a *= g] with a Python float [g]: computed in the dtype of [a]. *)
Definition imul (a : ndarray) (g : F) : ndarray :=
  amap (fun x => cast (dtype_of a) (x * cast (dtype_of a) g)%fl) a.

(** [np.clip(a, lo, hi)] *)
Definition clip_array (a : ndarray) (lo hi : F) : ndarray :=
  amap (fun x => np_clip x lo hi) a.

(** The store of arrays: a reference is an index into it, [a.copy()] and
    every NumPy call that returns a new array append to it. *)
Definition alloc (h : list ndarray) (a : ndarray) : nat * list ndarray :=
  (length h, h ++ [a]).
End Arrays.

Arguments ndarray F : clear implicits.
Abbreviation loc := nat (only parsing).
Abbreviation heap F := (list (ndarray F)) (only parsing).

(** ** filters.py *)

(** *** [EQBand] *)

Module EQBand.
Section Defs.
Context {F : Type} `{Arith F}.

Record t := mk {
  frequency : F;  (* Hz *)
  gain_db : F;    (* dB boost/cut *)
  q : F;          (* quality factor *)
  enabled : bool;
}.

(** [EQBand.clip]: a copy with the frequency constrained to a range. *)
Definition clip (self : t) (min_freq max_freq : F) : t :=
  let freq := np_clip (frequency self) min_freq max_freq in
  mk freq (gain_db self) (q self) (enabled self).
End Defs.
Arguments t F : clear implicits.
End EQBand.

(** *** [design_peaking_eq] *)

Section Designer.
Context {F : Type} `{Arith F} `{Libm F}.

(** The pair [(b, a)] of coefficient arrays, each of shape [(3,)]. *)
Definition design_peaking_eq (band : EQBand.t F) (sample_rate : F)
  : list F * list F :=
  if negb (EQBand.enabled band) then
    ([of_Z 1; of_Z 0; of_Z 0], [of_Z 1; of_Z 0; of_Z 0])
  else
    let freq := np_clip (EQBand.frequency band) (of_Z 20) (sample_rate / lit 2.1)%fl in
    let gain := EQBand.gain_db band in
    let q := py_max (lit 0.05) (EQBand.q band) in
    let a_gain := fpow (of_Z 10) (gain / of_Z 40)%fl in
    let omega := (of_Z 2 * fpi * freq / sample_rate)%fl in
    let alpha := (fsin omega / (of_Z 2 * q))%fl in
    let b0 := (of_Z 1 + alpha * a_gain)%fl in
    let b1 := (of_Z (-2) * fcos omega)%fl in
    let b2 := (of_Z 1 - alpha * a_gain)%fl in
    let a0 := (of_Z 1 + alpha / a_gain)%fl in
    let a1 := (of_Z (-2) * fcos omega)%fl in
    let a2 := (of_Z 1 - alpha / a_gain)%fl in
    ([b0; b1; b2], [a0; a1; a2]).
End Designer.

(** *** [BiquadFilter] *)

Module BiquadFilter.
Section Defs.
Context {F : Type} `{Arith F}.

(** [state] is the [(channels, 2)] array of [float32] delay registers,
    one pair [(z1, z2)] per channel. *)
Record t := mk {
  b0 : F; b1 : F; b2 : F;
  a1 : F; a2 : F;
  channels : Z;
  state : list (F * F);
}.

Definition with_state (self : t) (st : list (F * F)) : t :=
  mk (b0 self) (b1 self) (b2 self) (a1 self) (a2 self) (channels self) st.

(** [__init__]: [b] and [a] are one-dimensional arrays of doubles. *)
Definition init (b a : list F) (channels : Z) : result t :=
  if channels <? 1 then raise (ValueError msg_channels)
  else
    match b, a with
    | [b0; b1; b2], [a0; a1; a2] =>
        (* Normalize so a0 == 1 *)
        ret (mk (b0 / a0)%fl (b1 / a0)%fl (b2 / a0)%fl
                (a1 / a0)%fl (a2 / a0)%fl
                channels
                (replicate (Z.to_nat channels) (of_Z 0, of_Z 0)))
    | _, _ => raise (ValueError msg_coefficients)
    end.

(** The inner loop of [process] over the samples of one channel: the
    outputs and the final [(z1, z2)], all in double precision. *)
Fixpoint run (self : t) (z1 z2 : F) (x : list F) : list F * (F * F) :=
  match x with
  | [] => ([], (z1, z2))
  | sample :: x' =>
      let out := (b0 self * sample + z1)%fl in
      let z1_new := (b1 self * sample - a1 self * out + z2)%fl in
      let z2 := (b2 self * sample - a2 self * out)%fl in
      let z1 := z1_new in
      let '(outs, z) := run self z1 z2 x' in
      (out :: outs, z)
  end.

(** [block[:, ch]] *)
Definition column (rows : list (list F)) (ch : nat) : list F :=
  map (fun row => nth ch row (of_Z 0)) rows.

(** [y[:, ch][i] = outs[i]] for every [i], stored in the dtype of [y]. *)
Definition store_column (dt : dtype) (y : list (list F)) (ch : nat)
    (outs : list F) : list (list F) :=
  zip_with (fun row out => <[ch := cast dt out]> row) y outs.

(** One iteration of [for ch in range(self.channels)]: the state of the
    loop is the output array and the filter's [state] array.  Writing
    into [state] rounds to [float32]. *)
Definition process_channel (self : t) (dt : dtype) (rows : list (list F))
    (acc : list (list F) * list (F * F)) (ch : nat)
  : list (list F) * list (F * F) :=
  let '(y, st) := acc in
  let x := column rows ch in
  let '(z1, z2) := nth ch st (of_Z 0, of_Z 0) in
  let '(outs, (z1, z2)) := run self z1 z2 x in
  (store_column dt y ch outs, <[ch := (cast32 z1, cast32 z2)]> st).

(** [np.empty_like(block)]: the cells hold arbitrary values until they
    are written; they are zero here. *)
Definition empty_like (rows : list (list F)) : list (list F) :=
  map (map (fun _ => of_Z 0)) rows.

(** [process]: the new array [y] and the filter with its updated state.
    Nothing is written before the two shape checks. *)
Definition process (self : t) (block : ndarray F) : result (ndarray F * t) :=
  match block with
  | Array1 _ _ => raise (ValueError msg_block_2d)
  | Array2 dt cols rows =>
      if negb (Z.of_nat cols =? channels self)
      then raise (ValueError msg_channel_mismatch)
      else
        let '(y, st) :=
          fold_left (process_channel self dt rows)
                    (seq 0 (Z.to_nat (channels self)))
                    (empty_like rows, state self) in
        ret (Array2 dt cols y, with_state self st)
  end.
End Defs.
Arguments t F : clear implicits.

Section FromBand.
Context {F : Type} `{Arith F} `{Libm F}.

(** [from_eq_band] *)
Definition from_eq_band (band : EQBand.t F) (sample_rate : F) (channels : Z)
  : result (t F) :=
  let '(b, a) := design_peaking_eq band sample_rate in
  init b a channels.
End FromBand.
End BiquadFilter.

(** *** [EQFilterChain] *)

Module EQFilterChain.
Section Defs.
Context {F : Type} `{Arith F} `{Libm F}.

Record t := mk {
  sample_rate : F;
  channels : Z;
  _bands : list (EQBand.t F);
  _filters : list (BiquadFilter.t F);
}.

Definition init (sample_rate : F) (channels : Z) : t :=
  mk sample_rate channels [] [].

Definition bands (self : t) : list (EQBand.t F) := _bands self.

(** [set_bands]: two assignments.  A raise in the second comprehension
    leaves the first assignment done, so the chain is returned in both
    outcomes. *)
Definition set_bands (self : t) (bands : list (EQBand.t F)) : result unit * t :=
  let new_bands :=
    map (fun b => EQBand.clip b (of_Z 20) (sample_rate self / lit 2.1)%fl) bands in
  let self1 := mk (sample_rate self) (channels self) new_bands (_filters self) in
  match traverse
          (fun b => BiquadFilter.from_eq_band b (sample_rate self) (channels self))
          (List.filter EQBand.enabled new_bands) with
  | inl e => (raise e, self1)
  | inr filters =>
      (ret tt, mk (sample_rate self) (channels self) new_bands filters)
  end.

(** The loop [for filt in self._filters: output = filt.process(output)].
    [output] is a reference; every [filt.process] allocates its result.
    The filters already run keep their new state when a later one
    raises. *)
Fixpoint cascade (filters : list (BiquadFilter.t F)) (h : heap F)
    (output : loc) (arr : ndarray F)
  : result (loc * ndarray F) * heap F * list (BiquadFilter.t F) :=
  match filters with
  | [] => (ret (output, arr), h, [])
  | filt :: rest =>
      match BiquadFilter.process filt arr with
      | inl e => (raise e, h, filt :: rest)
      | inr (y, filt') =>
          let '(output', h') := alloc h y in
          let '(r, h'', rest') := cascade rest h' output' y in
          (r, h'', filt' :: rest')
      end
  end.

(** [process]: [block] is the reference passed in and [arr] the array it
    points to.  With no filter the very same reference is returned. *)
Definition process (self : t) (h : heap F) (block : loc) (arr : ndarray F)
  : result (loc * ndarray F) * heap F * t :=
  match _filters self with
  | [] => (ret (block, arr), h, self)
  | _ =>
      let '(r, h', filters') := cascade (_filters self) h block arr in
      (r, h', mk (sample_rate self) (channels self) (_bands self) filters')
  end.
End Defs.
Arguments t F : clear implicits.
End EQFilterChain.

(** ** engine.py *)

Module MeterSnapshot.
Record t {F : Type} := mk { input_rms : F; output_rms : F }.
Arguments t F : clear implicits.
Arguments mk {F} _ _.
End MeterSnapshot.

Section Rms.
Context {F : Type} `{Arith F}.

(** [rms] *)
Definition rms (block : ndarray F) : F :=
  if (size block =? 0)%nat then of_Z 0
  else fsqrt (np_mean64 (np_square block)).
End Rms.

Module EQEngine.
Section Defs.
Context {F : Type} `{Arith F} `{Libm F}.

Record t := mk {
  sample_rate : F;
  channels : Z;
  bypass : bool;
  output_gain_db : F;
  _chain : EQFilterChain.t F;
  _meter : MeterSnapshot.t F;
  _output_gain : F;
}.

Definition default_channels : Z := 2.
Definition default_output_gain_db : F := of_Z (-3).

(** The dataclass constructor followed by [__post_init__].  Neither
    contains a [raise]. *)
Definition init (sample_rate : F) (channels : Z) (bypass : bool)
    (output_gain_db : F) : result t :=
  ret (mk sample_rate channels bypass output_gain_db
          (EQFilterChain.init sample_rate channels)
          (MeterSnapshot.mk (of_Z 0) (of_Z 0))
          (fpow (of_Z 10) (output_gain_db / of_Z 20)%fl)).

Definition with_chain (self : t) (c : EQFilterChain.t F) : t :=
  mk (sample_rate self) (channels self) (bypass self) (output_gain_db self)
     c (_meter self) (_output_gain self).

Definition with_meter (self : t) (m : MeterSnapshot.t F) : t :=
  mk (sample_rate self) (channels self) (bypass self) (output_gain_db self)
     (_chain self) m (_output_gain self).

(** [engine.bypass = flag], as the audio backend does. *)
Definition set_bypass (self : t) (flag : bool) : t :=
  mk (sample_rate self) (channels self) flag (output_gain_db self)
     (_chain self) (_meter self) (_output_gain self).

Definition set_bands (self : t) (bands : list (EQBand.t F)) : result unit * t :=
  let '(r, c) := EQFilterChain.set_bands (_chain self) bands in
  (r, with_chain self c).

Definition set_output_gain (self : t) (gain_db : F) : t :=
  mk (sample_rate self) (channels self) (bypass self) gain_db
     (_chain self) (_meter self) (fpow (of_Z 10) (gain_db / of_Z 20)%fl).

Definition meter (self : t) : MeterSnapshot.t F := _meter self.

(** [block.shape[1]], read only when [ndim] is 2. *)
Definition shape1 (a : ndarray F) : nat :=
  match a with Array1 _ _ => 0%nat | Array2 _ cols _ => cols end.

(** [process_block] on the array [arr] that the reference [block]
    points to.  The outcome, the store and the engine are returned
    together: a raise keeps whatever was written before it. *)
Definition process_block_at (self : t) (h : heap F) (block : loc)
    (arr : ndarray F) : result loc * heap F * t :=
  if negb (ndim arr =? 2)%nat || negb (Z.of_nat (shape1 arr) =? channels self)
  then (raise (ValueError msg_engine_shape), h, self)
  else
    let input_level := rms arr in
    let '(r, h1, chain) :=
      if bypass self then
        let '(copy, h1) := alloc h arr in
        (ret (copy, arr), h1, _chain self)
      else EQFilterChain.process (_chain self) h block arr in
    match r with
    | inl e => (raise e, h1, with_chain self chain)
    | inr (processed, parr) =>
        (* processed *= self._output_gain, in place *)
        let parr := imul parr (_output_gain self) in
        let h2 := <[processed := parr]> h1 in
        let output_level := rms parr in
        let self' :=
          with_meter (with_chain self chain)
                     (MeterSnapshot.mk input_level output_level) in
        let '(clipped, h3) := alloc h2 (clip_array parr (of_Z (-1)) (of_Z 1)) in
        (ret clipped, h3, self')
    end.

(** [process_block]: [None] only for a reference that is not in the
    store, which a Python caller cannot produce. *)
Definition process_block (self : t) (h : heap F) (block : loc)
  : option (result loc * heap F * t) :=
  match h !! block with
  | None => None
  | Some arr => Some (process_block_at self h block arr)
  end.
End Defs.
Arguments t F : clear implicits.
End EQEngine.

(** ** Auxiliary definitions used to state the properties *)

(** Writing [v ch] at every index [ch] of [chs]. *)
Definition write_all {A : Type} (v : nat -> A) (chs : list nat) (l : list A) : list A :=
  fold_left (fun l ch => <[ch := v ch]> l) chs l.

Section BiquadAux.
Context {F : Type} `{Arith F}.

(** [self.state[ch]] *)
Definition registers (st : list (F * F)) (ch : nat) : F * F :=
  nth ch st (of_Z 0, of_Z 0).

(** What the inner loop computes for channel [ch] of [rows] when the
    filter's state array is [st]: the outputs and the final registers,
    before anything is stored. *)
Definition channel_run (f : BiquadFilter.t F) (st : list (F * F))
    (rows : list (list F)) (ch : nat) : list F * (F * F) :=
  let '(z1, z2) := registers st ch in
  BiquadFilter.run f z1 z2 (BiquadFilter.column rows ch).

(** Storing a register pair into the [float32] state array. *)
Definition round_registers (z : F * F) : F * F := (cast32 z.1, cast32 z.2).

(** Storing the outputs [o ch] of every channel of [chs] into [y]. *)
Definition store_all (dt : dtype) (o : nat -> list F) (chs : list nat)
    (y : list (list F)) : list (list F) :=
  fold_left (fun y ch => BiquadFilter.store_column dt y ch (o ch)) chs y.

(** The state array has one register pair per channel. *)
Definition wf_filter (f : BiquadFilter.t F) : Prop :=
  length (BiquadFilter.state f) = Z.to_nat (BiquadFilter.channels f).

(** At the end of [rows] the registers of every channel are [float32]
    values: storing them into the state array does not change them. *)
Definition exact_at_boundary (f : BiquadFilter.t F) (rows : list (list F)) : Prop :=
  forall ch, (ch < Z.to_nat (BiquadFilter.channels f))%nat ->
    round_registers (channel_run f (BiquadFilter.state f) rows ch).2
    = (channel_run f (BiquadFilter.state f) rows ch).2.

(** [np.concatenate([a, b])] along the frame axis. *)
Definition concat_frames (a b : ndarray F) : ndarray F :=
  match a, b with
  | Array1 dt xs, Array1 _ ys => Array1 dt (xs ++ ys)
  | Array2 dt cols r1, Array2 _ _ r2 => Array2 dt cols (r1 ++ r2)
  | _, _ => a
  end.

(** One call on the whole block against two calls on its halves. *)
Definition one_call (f : BiquadFilter.t F) (dt : dtype) (cols : nat)
    (rows1 rows2 : list (list F)) : result (ndarray F * BiquadFilter.t F) :=
  BiquadFilter.process f (Array2 dt cols (rows1 ++ rows2)).

Definition two_calls (f : BiquadFilter.t F) (dt : dtype) (cols : nat)
    (rows1 rows2 : list (list F)) : result (ndarray F * BiquadFilter.t F) :=
  let! (y1, f1) := BiquadFilter.process f (Array2 dt cols rows1) in
  let! (y2, f2) := BiquadFilter.process f1 (Array2 dt cols rows2) in
  ret (concat_frames y1 y2, f2).
End BiquadAux.

Section EngineAux.
Context {F : Type} `{Arith F} `{Libm F}.

(** [f'] is [f] with, at most, other delay registers. *)
Definition same_filter (f f' : BiquadFilter.t F) : Prop :=
  f' = BiquadFilter.with_state f (BiquadFilter.state f').

Definition same_chain (c c' : EQFilterChain.t F) : Prop :=
  EQFilterChain.sample_rate c' = EQFilterChain.sample_rate c /\
  EQFilterChain.channels c' = EQFilterChain.channels c /\
  EQFilterChain._bands c' = EQFilterChain._bands c /\
  Forall2 same_filter (EQFilterChain._filters c) (EQFilterChain._filters c').

(** Between [e] and [e'] nothing differs but the meter snapshot and the
    delay registers of the chain's filters. *)
Definition only_meter_and_registers (e e' : EQEngine.t F) : Prop :=
  EQEngine.sample_rate e' = EQEngine.sample_rate e /\
  EQEngine.channels e' = EQEngine.channels e /\
  EQEngine.bypass e' = EQEngine.bypass e /\
  EQEngine.output_gain_db e' = EQEngine.output_gain_db e /\
  EQEngine._output_gain e' = EQEngine._output_gain e /\
  same_chain (EQEngine._chain e) (EQEngine._chain e').

(** The chain and every filter of it were built for the engine's channel
    count, as [__post_init__] and [set_bands] build them. *)
Definition consistent (e : EQEngine.t F) : Prop :=
  EQFilterChain.channels (EQEngine._chain e) = EQEngine.channels e /\
  Forall (fun f => BiquadFilter.channels f = EQEngine.channels e)
         (EQFilterChain._filters (EQEngine._chain e)).

(** The shape test of [process_block]. *)
Definition bad_shape (e : EQEngine.t F) (arr : ndarray F) : Prop :=
  ndim arr <> 2%nat \/ Z.of_nat (EQEngine.shape1 arr) <> EQEngine.channels e.

End EngineAux.

(** ** Facts about the arithmetic

    The properties of floating-point arithmetic that some results rest on.
    They hold of IEEE-754 doubles and of the reals: both instances are
    proved below ([IEEE_laws], [Ideal_laws]). *)

Class ArithLaws (F : Type) `{Arith F} := {
  (** the value is a well-formed double *)
  fvalid : F -> Prop;
  (** the value is a zero of either sign *)
  is_zero : F -> Prop;
  is_zero_0 : is_zero (of_Z 0);
  fltb_asym : forall x y, fltb x y = true -> fltb y x = false;
  fltb_m1_1 : fltb (of_Z (-1)) (of_Z 1) = true;
  is_nan_of_Z : forall n, is_nan (of_Z n) = false;
  fmul_1_r : forall x, fvalid x -> fmul x (of_Z 1) = x;
  cast32_0 : cast32 (of_Z 0) = of_Z 0;
  cast32_1 : cast32 (of_Z 1) = of_Z 1;
  fmul_zero : forall x, is_zero x -> fmul x x = of_Z 0;
  fadd_0_0 : fadd (of_Z 0) (of_Z 0) = of_Z 0;
  fdiv_0_l : forall n, 0 < n -> fdiv (of_Z 0) (of_Z n) = of_Z 0;
  fsqrt_0 : fsqrt (of_Z 0) = of_Z 0;
}.

(** [x ** 0.0] is [1.0] for every [x], as C's [pow] has it. *)
Class LibmLaws (F : Type) `{Arith F} `{Libm F} := {
  fpow_0 : forall x, fpow x (of_Z 0) = of_Z 1;
}.

Section SpecWords.
Context {F : Type} `{Arith F} `{Libm F}.

(** The raw cookbook coefficients as the spec writes them, from the
    clamped frequency [f], the clamped quality factor [q] and the gain. *)
Definition cookbook_A (gain_db : F) : F := fpow (of_Z 10) (gain_db / of_Z 40)%fl.
Definition cookbook_omega (f sample_rate : F) : F :=
  (of_Z 2 * fpi * f / sample_rate)%fl.
Definition cookbook_alpha (omega q : F) : F := (fsin omega / (of_Z 2 * q))%fl.

Definition cookbook_b (alpha A omega : F) : list F :=
  [(of_Z 1 + alpha * A)%fl; (of_Z (-2) * fcos omega)%fl; (of_Z 1 - alpha * A)%fl].
Definition cookbook_a (alpha A omega : F) : list F :=
  [(of_Z 1 + alpha / A)%fl; (of_Z (-2) * fcos omega)%fl; (of_Z 1 - alpha / A)%fl].

(** The filter a coefficient set gives once it is normalized by [a0]:
    fresh, with every delay register at zero. *)
Definition normalized (b a : list F) (channels : Z) : BiquadFilter.t F :=
  let b0 := nth 0 b (of_Z 0) in let b1 := nth 1 b (of_Z 0) in
  let b2 := nth 2 b (of_Z 0) in let a0 := nth 0 a (of_Z 0) in
  let a1 := nth 1 a (of_Z 0) in let a2 := nth 2 a (of_Z 0) in
  BiquadFilter.mk (b0 / a0)%fl (b1 / a0)%fl (b2 / a0)%fl (a1 / a0)%fl (a2 / a0)%fl
                  channels (replicate (Z.to_nat channels) (of_Z 0, of_Z 0)).

(** [lo <= x <= hi], in terms of the comparison the code uses. *)
Definition within (x lo hi : F) : Prop :=
  (x <? lo)%fl = false /\ (hi <? x)%fl = false.

(** The band as [set_bands] stores it. *)
Definition stored_band (sample_rate : F) (b : EQBand.t F) : EQBand.t F :=
  EQBand.mk (np_clip (EQBand.frequency b) (of_Z 20) (sample_rate / lit 2.1)%fl)
            (EQBand.gain_db b) (EQBand.q b) (EQBand.enabled b).
End SpecWords.

Section MoreSpecWords.
Context {F : Type} `{Arith F}.

(** [a.shape] *)
Definition shape (a : ndarray F) : list nat :=
  match a with
  | Array1 _ xs => [length xs]
  | Array2 _ cols rows => [length rows; cols]
  end.

(** [sqrt(mean(block^2))] over all samples and channels combined, the
    sum, the quotient and the root in double precision. *)
Definition sum_of_squares (dt : dtype) (xs : list F) : F :=
  fold_left (fun acc x => (acc + cast dt (x * x))%fl) xs (of_Z 0).


End MoreSpecWords.

(** ** Concrete filters, engines and blocks used in the examples *)

Module Examples_IEEE.
(** A feed-forward biquad: [out[n] = x[n] + 0.1 x[n-1]]. *)
Definition fir_b : list spec_float := [of_Z 1; lit 0.1; of_Z 0].
Definition fir_a : list spec_float := [of_Z 1; of_Z 0; of_Z 0].
Definition fir : BiquadFilter.t spec_float := normalized fir_b fir_a 1.

(** Two frames of one channel: [2^40], then [-0.1 * 2^40]. *)
Definition loud : spec_float := of_Z (2 ^ 40).
Definition anti : spec_float := (lit (-1 # 10) * loud)%fl.
(** 1638.4 *)
Definition residue : spec_float := S754_finite false 7205759376949248 (-42).

Definition outputs (r : result (ndarray spec_float * BiquadFilter.t spec_float))
  : option (list spec_float) :=
  match r with inl _ => None | inr (y, _) => Some (flat y) end.

(** A feed-forward biquad whose registers stay [float32] values on
    small integers. *)
Definition dyadic : BiquadFilter.t spec_float :=
  normalized [of_Z 1; lit 0.5; lit 0.25] [of_Z 1; of_Z 0; of_Z 0] 2.
Definition frames1 : list (list spec_float) := [[of_Z 1; of_Z 2]; [of_Z 3; of_Z 4]].
Definition frames2 : list (list spec_float) := [[of_Z 5; of_Z 6]].
End Examples_IEEE.

Module Examples_Ideal.
Local Open Scope R_scope.
(** [EQEngine(sample_rate=48000.0)]: two channels, bypass off, -3 dB. *)
Definition engine : EQEngine.t R :=
  EQEngine.mk 48000 2 false (-3) (EQFilterChain.init 48000 2)
              (MeterSnapshot.mk 0 0) (Rpower 10 (-3 / 20)).

(** One stereo frame. *)
Definition frame : ndarray R := Array2 Float32 2 [[1 / 2; -2]].
Definition mono : ndarray R := Array1 Float32 [1 / 2; -2].

(** A band at a quarter of the sample rate: 12 kHz, +40 dB, Q 0.5. *)
Definition band : EQBand.t R := EQBand.mk 12000 40 (1 / 2) true.
Definition muted : EQBand.t R := EQBand.mk 100 6 1 false.
(** The filter of [band] at 48 kHz, as designed and normalized. *)
Definition band_filter : BiquadFilter.t R :=
  BiquadFilter.mk (11 / (11 / 10)) (0 / (11 / 10)) (-9 / (11 / 10))
                  (0 / (11 / 10)) ((9 / 10) / (11 / 10)) 2 [(0, 0); (0, 0)].
Definition tuned : EQEngine.t R :=
  EQEngine.with_chain engine
    (EQFilterChain.mk 48000 2 [band] [band_filter]).
End Examples_Ideal.

(** ** Further definitions used to state properties *)

Section ChainAux.
Context {F : Type} `{Arith F}.

(** The chain [c] with the filter list [fs]. *)
Definition with_filters (c : EQFilterChain.t F) (fs : list (BiquadFilter.t F))
  : EQFilterChain.t F :=
  EQFilterChain.mk (EQFilterChain.sample_rate c) (EQFilterChain.channels c)
                   (EQFilterChain._bands c) fs.

(** Processing with the filters [fs1], then with the filters [fs2] on what
    the first pass returned, in the store it left. *)
Definition process_twice (c : EQFilterChain.t F) (fs1 fs2 : list (BiquadFilter.t F))
    (h : heap F) (block : loc) (arr : ndarray F)
  : result (loc * ndarray F) * heap F * EQFilterChain.t F :=
  let '(r1, h1, c1) := EQFilterChain.process (with_filters c fs1) h block arr in
  match r1 with
  | inl e => (inl e, h1, with_filters c (EQFilterChain._filters c1 ++ fs2))
  | inr (p, a) =>
      let '(r2, h2, c2) := EQFilterChain.process (with_filters c fs2) h1 p a in
      (r2, h2, with_filters c (EQFilterChain._filters c1 ++ EQFilterChain._filters c2))
  end.
End ChainAux.

Section DesignerAux.
Context {F : Type} `{Arith F}.

(** The band with the opposite gain. *)
Definition cut_of (b : EQBand.t F) : EQBand.t F :=
  EQBand.mk (EQBand.frequency b) (of_Z 0 - EQBand.gain_db b)%fl
            (EQBand.q b) (EQBand.enabled b).

(** A coefficient set with numerator and denominator exchanged: the
    inverse transfer function. *)
Definition swap_coefficients (ba : list F * list F) : list F * list F :=
  (ba.2, ba.1).

(** Both coefficient arrays multiplied by [k]. *)
Definition scaled (k : F) (coeffs : list F) : list F := map (fmul k) coeffs.
End DesignerAux.

Section EngineMore.
Context {F : Type} `{Arith F}.

(** A sample that [np.clip(., -1.0, 1.0)] can return: a NaN, or a value
    between the bounds. *)
Definition clipped_sample (x : F) : Prop :=
  is_nan x = true \/ within x (of_Z (-1)) (of_Z 1).
End EngineMore.

(** *** [linear_to_db] and the dBFS properties of [MeterSnapshot] *)

(** What [linear_to_db] needs beyond [Arith]: the comparison [<=] and
    [np.log10]. *)
Class MeterMath (F : Type) := {
  fleb : F -> F -> bool;
  flog10 : F -> F;
}.

Section Decibels.
Context {F : Type} `{Arith F} `{MeterMath F}.

Definition default_floor : F := of_Z (-120).

(** [linear_to_db] *)
Definition linear_to_db (value floor : F) : F :=
  if fleb value (of_Z 0) then floor
  else py_max floor (of_Z 20 * flog10 value)%fl.

(** [MeterSnapshot.input_dbfs], [MeterSnapshot.output_dbfs] *)
Definition input_dbfs (m : MeterSnapshot.t F) : F :=
  linear_to_db (MeterSnapshot.input_rms m) default_floor.

Definition output_dbfs (m : MeterSnapshot.t F) : F :=
  linear_to_db (MeterSnapshot.output_rms m) default_floor.
End Decibels.

Module Ideal_meter.
Definition Rleb (x y : R) : bool := if Rle_dec x y then true else false.

#[global] Instance meter_math : MeterMath R := {|
  fleb := Rleb;
  flog10 := fun x => (ln x / ln 10)%R;
|}.
End Ideal_meter.

(** ** audio/stream.py *)

(** *** The status queue: [queue.Queue(maxsize=32)] of strings *)

Module StatusQueue.
Inductive exn := Full | Empty.

Record t := mk { maxsize : Z; items : list string }.

Definition qsize (q : t) : nat := length (items q).

(** [put_nowait]: a queue with [maxsize > 0] holding [maxsize] items
    raises [Full]. *)
Definition put_nowait (q : t) (item : string) : exn + t :=
  if (0 <? maxsize q) && (maxsize q <=? Z.of_nat (qsize q))
  then inl Full
  else inr (mk (maxsize q) (items q ++ [item])).

(** [get_nowait]: the oldest item, or [Empty]. *)
Definition get_nowait (q : t) : exn + (string * t) :=
  match items q with
  | [] => inl Empty
  | item :: rest => inr (item, mk (maxsize q) rest)
  end.

(** [_put_status]: when the queue is full the oldest message is dropped
    to make room; nothing is raised. *)
Definition put_status (q : t) (message : string) : t :=
  match put_nowait q message with
  | inr q' => q'
  | inl _ =>
      let q1 :=
        match get_nowait q with
        | inr (_, q1) => q1
        | inl _ => q
        end in
      match put_nowait q1 message with
      | inr q2 => q2
      | inl _ => q1
      end
  end.

(** [poll_status]: [get_nowait] until [Empty].  [fuel] bounds the number
    of iterations; [None] when it does not suffice. *)
Fixpoint poll_loop (fuel : nat) (q : t) (messages : list string)
  : option (list string * t) :=
  match fuel with
  | O => None
  | S fuel' =>
      match get_nowait q with
      | inl _ => Some (messages, q)
      | inr (item, q') => poll_loop fuel' q' (messages ++ [item])
      end
  end.

Definition poll_status (fuel : nat) (q : t) : option (list string * t) :=
  poll_loop fuel q [].

(** The last [n] entries of a list. *)
Definition last_n {A : Type} (n : nat) (l : list A) : list A :=
  skipn (length l - n) l.
End StatusQueue.

(** *** [AudioBackend] *)

Module AudioBackend.
Section Defs.
Context {F : Type} `{Arith F} `{Libm F}.

(** The fields of the backend, but for [_stream] and [_lock], which are
    objects of [sounddevice] and [threading]. *)
Record t := mk {
  sample_rate : F;
  block_size : Z;
  channels : Z;
  input_device : option Z;
  output_device : option Z;
  _engine : option (EQEngine.t F);
  _status : StatusQueue.t;
  _bands : list (EQBand.t F);
  _bypass : bool;
  _output_gain_db : F;
}.

(** [__init__] *)
Definition init : t :=
  mk (of_Z 48000) 256 2 None None None (StatusQueue.mk 32 []) [] false (of_Z (-3)).

Definition with_engine (self : t) (e : option (EQEngine.t F)) : t :=
  mk (sample_rate self) (block_size self) (channels self) (input_device self)
     (output_device self) e (_status self) (_bands self) (_bypass self)
     (_output_gain_db self).

Definition _put_status (self : t) (message : string) : t :=
  mk (sample_rate self) (block_size self) (channels self) (input_device self)
     (output_device self) (_engine self)
     (StatusQueue.put_status (_status self) message)
     (_bands self) (_bypass self) (_output_gain_db self).



(** [EQBand(b.frequency, b.gain_db, b.q, b.enabled)] *)
Definition copy_band (b : EQBand.t F) : EQBand.t F :=
  EQBand.mk (EQBand.frequency b) (EQBand.gain_db b) (EQBand.q b) (EQBand.enabled b).

(** [set_bands] *)
Definition set_bands (self : t) (bands : list (EQBand.t F)) : result unit * t :=
  let copies := map copy_band bands in
  let self1 :=
    mk (sample_rate self) (block_size self) (channels self) (input_device self)
       (output_device self) (_engine self) (_status self) copies (_bypass self)
       (_output_gain_db self) in
  match _engine self1 with
  | None => (ret tt, self1)
  | Some engine =>
      let '(r, engine) := EQEngine.set_bands engine copies in
      (r, with_engine self1 (Some engine))
  end.

(** [set_bypass] *)
Definition set_bypass (self : t) (bypass : bool) : t :=
  mk (sample_rate self) (block_size self) (channels self) (input_device self)
     (output_device self)
     (match _engine self with
      | None => None
      | Some engine => Some (EQEngine.set_bypass engine bypass)
      end)
     (_status self) (_bands self) bypass (_output_gain_db self).

(** [set_output_gain] *)
Definition set_output_gain (self : t) (gain_db : F) : t :=
  mk (sample_rate self) (block_size self) (channels self) (input_device self)
     (output_device self)
     (match _engine self with
      | None => None
      | Some engine => Some (EQEngine.set_output_gain engine gain_db)
      end)
     (_status self) (_bands self) (_bypass self) gain_db.

(** [poll_status] *)
Definition poll_status (fuel : nat) (self : t) : option (list string * t) :=
  match StatusQueue.poll_status fuel (_status self) with
  | None => None
  | Some (messages, q) =>
      Some (messages,
            mk (sample_rate self) (block_size self) (channels self)
               (input_device self) (output_device self) (_engine self) q
               (_bands self) (_bypass self) (_output_gain_db self))
  end.

(** [get_meter] *)
Definition get_meter (self : t) : MeterSnapshot.t F :=
  match _engine self with
  | Some engine => EQEngine.meter engine
  | None => MeterSnapshot.mk (of_Z 0) (of_Z 0)
  end.

(** [outdata.fill(0)] *)
Definition fill_zero (a : ndarray F) : ndarray F := amap (fun _ => of_Z 0) a.

(** The samples of [a] stored in dtype [dt]. *)
Definition astype (dt : dtype) (a : ndarray F) : ndarray F :=
  match a with
  | Array1 _ xs => Array1 dt (map (cast dt) xs)
  | Array2 _ cols rows => Array2 dt cols (map (map (cast dt)) rows)
  end.

(** [outdata[:] = processed] for two arrays of one shape, as the audio
    callback receives and produces them: the samples are stored in the
    dtype of [outdata].  [None] for arrays of different shapes, where
    NumPy broadcasts or raises; this is left out of the model. *)
Definition assign_all (outdata processed : ndarray F) : option (ndarray F) :=
  if decide (shape outdata = shape processed)
  then Some (astype (dtype_of outdata) processed)
  else None.

(** [_callback].  [indata] and [outdata] are references into the store;
    [status] is [None] for a falsy status and [Some s] for a status whose
    [str] is [s]; the arguments [frames] and [time] are not read.  [None]
    for references that are not in the store and for the assignment left
    out of [assign_all]. *)
Definition _callback (self : t) (h : heap F) (indata outdata : loc)
    (status : option string) : option (heap F * t) :=
  let self :=
    match status with
    | Some s => _put_status self ("Audio callback status: " ++ s)
    | None => self
    end in
  match h !! indata with
  | None => None
  | Some in_arr =>
      (* block = np.array(indata, copy=True) *)
      let '(block, h) := alloc h in_arr in
      match _engine self with
      | None =>
          match h !! outdata with
          | None => None
          | Some out_arr => Some (<[outdata := fill_zero out_arr]> h, self)
          end
      | Some engine =>
          let '(r, h, engine) := EQEngine.process_block_at engine h block in_arr in
          let self := with_engine self (Some engine) in
          match r with
          | inl (ValueError msg) =>
              match h !! outdata with
              | None => None
              | Some out_arr =>
                  Some (<[outdata := fill_zero out_arr]> h,
                        _put_status self ("Processing error: " ++ msg))
              end
          | inr processed =>
              match h !! outdata, h !! processed with
              | Some out_arr, Some parr =>
                  match assign_all out_arr parr with
                  | Some filled => Some (<[outdata := filled]> h, self)
                  | None => None
                  end
              | _, _ => None
              end
          end
      end
  end.
End Defs.
Arguments t F : clear implicits.
End AudioBackend.

Section BackendAux.
Context {F : Type} `{Arith F} `{Libm F}.

End BackendAux.

(** ** dsp/signals.py *)

(** Python's [int(x)] of a float: truncation toward zero; [None] where it
    raises (a NaN or an infinity). *)
Class Trunc (F : Type) := { to_int : F -> option Z }.

Section Signals.
Context {F : Type} `{Arith F} `{Libm F} `{Trunc F}.

(** [np.arange(n)]: the integers from [0] up to [n], none for [n <= 0]. *)
Definition np_arange (n : Z) : list F :=
  map (fun i => of_Z (Z.of_nat i)) (seq 0 (Z.to_nat n)).

(** [np.stack([a, b], axis=1)] for two vectors of one length. *)
Definition np_stack2 (a b : list F) : ndarray F :=
  Array2 Float64 2 (zip_with (fun x y => [x; y]) a b).

(** [sine_wave] *)
Definition sine_wave (freq sample_rate duration amplitude : F) : option (ndarray F) :=
  match to_int (sample_rate * duration)%fl with
  | None => None
  | Some n =>
      let t := map (fun i => i / sample_rate)%fl (np_arange n) in
      let wave := map (fun ti => amplitude * fsin (of_Z 2 * fpi * freq * ti))%fl t in
      Some (np_stack2 wave wave)
  end.
End Signals.

Module Ideal_signals.
(** Truncation toward zero of a real number. *)
Definition Rtrunc (x : R) : Z :=
  if Rle_dec 0 x then Int_part x else - Int_part (- x).

#[global] Instance trunc : Trunc R := {| to_int := fun x => Some (Rtrunc x) |}.
End Ideal_signals.

(** ** Further examples *)

Module Examples_backend.
Import Ideal Ideal_meter Examples_Ideal.
Local Open Scope R_scope.

(** The chain of [engine] after [set_bands([band, muted])]. *)
Definition retuned : EQFilterChain.t R :=
  EQFilterChain.mk 48000 2
    (map (stored_band 48000) [band; muted])
    (map (fun b => normalized (design_peaking_eq b 48000).1
                              (design_peaking_eq b 48000).2 2)
         (List.filter EQBand.enabled (map (stored_band 48000) [band; muted]))).

(** A backend configured for 48 kHz with the engine [engine]. *)
Definition backend : AudioBackend.t R :=
  AudioBackend.mk 48000 256 2 (Some 0%Z) (Some 1%Z) (Some engine)
                  (StatusQueue.mk 32 []) [] false (-3).

(** An output buffer of one stereo frame. *)
Definition buffer : ndarray R := Array2 Float32 2 [[7; 7]].
End Examples_backend.

(** * Properties *)

(** ** Lists written to by index *)

Section IndexedWrites.
Context {A : Type}.

Lemma write_all_cons (v : nat -> A) c cs (l : list A) :
  write_all v (c :: cs) l = write_all v cs (<[c := v c]> l).
Proof. reflexivity. Qed.

Lemma write_all_length (v : nat -> A) chs (l : list A) : length (write_all v chs l) = length l.
Proof.
  revert l. induction chs as [|c cs IH]; intros l; [done|].
  rewrite write_all_cons, IH. apply length_insert.
Qed.

Lemma write_all_lookup (v : nat -> A) chs (l : list A) i :
  write_all v chs l !! i =
  if decide (i ∈ chs) then (fun _ => v i) <$> (l !! i) else l !! i.
Proof.
  revert l. induction chs as [|c cs IH]; intros l.
  - destruct (decide (i ∈ [])) as [Hin|_]; [|done]. by apply elem_of_nil in Hin.
  - rewrite write_all_cons, IH.
    destruct (decide (i = c)) as [->|Hne].
    + destruct (decide (c ∈ c :: cs)) as [_|Hn]; [|exfalso; apply Hn; left].
      destruct (decide (c < length l)%nat) as [Hlt|Hge].
      * rewrite list_lookup_insert_eq by done.
        destruct (l !! c) eqn:E; [|apply lookup_ge_None in E; lia].
        by destruct (decide (c ∈ cs)).
      * rewrite list_insert_ge by lia.
        rewrite (proj2 (lookup_ge_None l c)) by lia.
        by destruct (decide (c ∈ cs)).
    + rewrite list_lookup_insert_ne by done.
      destruct (decide (i ∈ cs)) as [Hin|Hnin];
        destruct (decide (i ∈ c :: cs)) as [Hin'|Hnin']; try done.
      * exfalso. apply Hnin'. by right.
      * exfalso. apply elem_of_cons in Hin' as [?|?]; done.
Qed.


Lemma write_all_twice (v w : nat -> A) chs (l : list A) :
  write_all w chs (write_all v chs l) = write_all w chs l.
Proof.
  apply list_eq. intros i. rewrite !write_all_lookup.
  destruct (decide (i ∈ chs)); [|done].
  by destruct (l !! i).
Qed.

Lemma write_all_ext (v w : nat -> A) chs (l : list A) :
  (forall ch, ch ∈ chs -> v ch = w ch) -> write_all v chs l = write_all w chs l.
Proof.
  intros Hvw. apply list_eq. intros i. rewrite !write_all_lookup.
  destruct (decide (i ∈ chs)) as [Hin|]; [|done].
  by rewrite (Hvw i Hin).
Qed.
End IndexedWrites.

(** ** The biquad: what [process] computes *)

Section BiquadProps.
Context {F : Type} `{Arith F}.
Implicit Types (f : BiquadFilter.t F) (st : list (F * F)) (rows y : list (list F)).

Lemma run_app f z1 z2 (xs ys : list F) :
  BiquadFilter.run f z1 z2 (xs ++ ys) =
  let '(o1, (z1', z2')) := BiquadFilter.run f z1 z2 xs in
  let '(o2, z) := BiquadFilter.run f z1' z2' ys in
  (o1 ++ o2, z).
Proof.
  revert z1 z2. induction xs as [|x xs IH]; intros z1 z2; simpl.
  - by destruct (BiquadFilter.run f z1 z2 ys).
  - rewrite IH.
    destruct (BiquadFilter.run f _ _ xs) as [o1 [z1' z2']].
    by destruct (BiquadFilter.run f z1' z2' ys).
Qed.

Lemma run_length f z1 z2 (xs : list F) :
  length (BiquadFilter.run f z1 z2 xs).1 = length xs.
Proof.
  revert z1 z2. induction xs as [|x xs IH]; intros z1 z2; simpl; [done|].
  specialize (IH (BiquadFilter.b1 f * x
                  - BiquadFilter.a1 f * (BiquadFilter.b0 f * x + z1) + z2)%fl
                 (BiquadFilter.b2 f * x
                  - BiquadFilter.a2 f * (BiquadFilter.b0 f * x + z1))%fl).
  destruct (BiquadFilter.run f _ _ xs) as [o z]. simpl in *. by rewrite IH.
Qed.

(** The recurrence reads the coefficients only. *)
Lemma run_with_state f st z1 z2 (xs : list F) :
  BiquadFilter.run (BiquadFilter.with_state f st) z1 z2 xs
  = BiquadFilter.run f z1 z2 xs.
Proof.
  revert z1 z2. induction xs as [|x xs IH]; intros z1 z2; simpl; [done|].
  by rewrite IH.
Qed.

Lemma with_state_twice f st st' :
  BiquadFilter.with_state (BiquadFilter.with_state f st) st'
  = BiquadFilter.with_state f st'.
Proof. reflexivity. Qed.

Lemma state_with_state f st :
  BiquadFilter.state (BiquadFilter.with_state f st) = st.
Proof. reflexivity. Qed.

Lemma channels_with_state f st :
  BiquadFilter.channels (BiquadFilter.with_state f st) = BiquadFilter.channels f.
Proof. reflexivity. Qed.

Lemma channel_run_with_state f st st' rows ch :
  channel_run (BiquadFilter.with_state f st') st rows ch = channel_run f st rows ch.
Proof.
  unfold channel_run. destruct (registers st ch). apply run_with_state.
Qed.

Lemma channel_run_length f st rows ch :
  length (channel_run f st rows ch).1 = length rows.
Proof.
  unfold channel_run. destruct (registers st ch).
  rewrite run_length. unfold BiquadFilter.column. apply length_map.
Qed.

Lemma process_channel_eq f dt rows y st ch :
  BiquadFilter.process_channel f dt rows (y, st) ch =
  (BiquadFilter.store_column dt y ch (channel_run f st rows ch).1,
   <[ch := round_registers (channel_run f st rows ch).2]> st).
Proof.
  unfold BiquadFilter.process_channel, channel_run, registers.
  destruct (nth ch st _) as [z1 z2].
  by destruct (BiquadFilter.run f z1 z2 _) as [outs [z1' z2']].
Qed.

Lemma registers_insert_ne st ch ch' z :
  ch ≠ ch' -> registers (<[ch := z]> st) ch' = registers st ch'.
Proof.
  intros Hne. unfold registers.
  by rewrite !nth_lookup, list_lookup_insert_ne.
Qed.

Lemma channel_run_ext f st st' rows ch :
  registers st ch = registers st' ch ->
  channel_run f st rows ch = channel_run f st' rows ch.
Proof. unfold channel_run. by intros ->. Qed.

(** The channel loop in closed form: channel [ch] reads its registers
    before any iteration has written them, so every channel is run from
    the state array the call started with. *)
Lemma fold_process_channel f dt rows st0 chs y st :
  NoDup chs ->
  (forall ch, ch ∈ chs -> registers st ch = registers st0 ch) ->
  fold_left (BiquadFilter.process_channel f dt rows) chs (y, st) =
  (store_all dt (fun ch => (channel_run f st0 rows ch).1) chs y,
   write_all (fun ch => round_registers (channel_run f st0 rows ch).2) chs st).
Proof.
  revert y st. induction chs as [|c cs IH]; intros y st Hnd Hreg; [done|].
  apply NoDup_cons in Hnd as [Hc Hnd].
  cbn [fold_left]. rewrite process_channel_eq.
  rewrite (channel_run_ext f st st0 rows c) by (apply Hreg; left).
  rewrite IH; [done|done|].
  intros ch Hch. rewrite registers_insert_ne; [|by intros ->].
  apply Hreg. by right.
Qed.

Lemma process_closed_form f dt cols rows :
  BiquadFilter.process f (Array2 dt cols rows) =
  if negb (Z.of_nat cols =? BiquadFilter.channels f)
  then raise (ValueError msg_channel_mismatch)
  else
    let chs := seq 0 (Z.to_nat (BiquadFilter.channels f)) in
    let st := BiquadFilter.state f in
    ret (Array2 dt cols
           (store_all dt (fun ch => (channel_run f st rows ch).1) chs
                      (BiquadFilter.empty_like rows)),
         BiquadFilter.with_state f
           (write_all (fun ch => round_registers (channel_run f st rows ch).2)
                      chs st)).
Proof.
  unfold BiquadFilter.process.
  destruct (negb _); [done|].
  rewrite (fold_process_channel f dt rows (BiquadFilter.state f));
    [done|apply NoDup_seq|done].
Qed.
End BiquadProps.

(** ** State continuity across block boundaries *)

Section Continuity.
Context {F : Type} `{Arith F}.
Implicit Types (f : BiquadFilter.t F) (st : list (F * F)) (rows y : list (list F)).

Lemma store_column_length dt y ch (outs : list F) :
  length outs = length y ->
  length (BiquadFilter.store_column dt y ch outs) = length y.
Proof.
  intros Hlen. unfold BiquadFilter.store_column.
  rewrite length_zip_with. lia.
Qed.

Lemma store_all_ext dt (o o' : nat -> list F) chs y :
  (forall ch, ch ∈ chs -> o ch = o' ch) ->
  store_all dt o chs y = store_all dt o' chs y.
Proof.
  revert y. induction chs as [|c cs IH]; intros y Ho; [done|].
  unfold store_all in *. cbn [fold_left].
  rewrite (Ho c) by left. apply IH. intros ch Hch. apply Ho. by right.
Qed.

Lemma store_all_app dt (o1 o2 : nat -> list F) chs ya yb :
  (forall ch, length (o1 ch) = length ya) ->
  store_all dt (fun ch => o1 ch ++ o2 ch) chs (ya ++ yb)
  = store_all dt o1 chs ya ++ store_all dt o2 chs yb.
Proof.
  revert ya yb. induction chs as [|c cs IH]; intros ya yb Hlen; [done|].
  unfold store_all in *. cbn [fold_left].
  unfold BiquadFilter.store_column at 2.
  rewrite zip_with_app by (symmetry; apply Hlen).
  apply IH. intros ch.
  rewrite Hlen. symmetry. apply store_column_length. apply Hlen.
Qed.

(** The registers a second call reads are the rounded registers the
    first call stored. *)
Lemma registers_after f st rows ch :
  (ch < length st)%nat ->
  (ch < Z.to_nat (BiquadFilter.channels f))%nat ->
  registers
    (write_all (fun c => round_registers (channel_run f st rows c).2)
               (seq 0 (Z.to_nat (BiquadFilter.channels f))) st) ch
  = round_registers (channel_run f st rows ch).2.
Proof.
  intros Hst Hch. unfold registers.
  rewrite nth_lookup, write_all_lookup.
  destruct (decide (ch ∈ seq 0 (Z.to_nat (BiquadFilter.channels f)))) as [_|Hn].
  - by destruct (lookup_lt_is_Some_2 st ch Hst) as [z ->].
  - exfalso. apply Hn, elem_of_seq. lia.
Qed.

Lemma channel_run_app f st st1 rows1 rows2 ch :
  registers st1 ch = (channel_run f st rows1 ch).2 ->
  channel_run f st (rows1 ++ rows2) ch =
  ((channel_run f st rows1 ch).1 ++ (channel_run f st1 rows2 ch).1,
   (channel_run f st1 rows2 ch).2).
Proof.
  unfold channel_run. intros Hreg.
  destruct (registers st ch) as [z1 z2].
  unfold BiquadFilter.column. rewrite map_app, run_app.
  destruct (BiquadFilter.run f z1 z2 _) as [o1 [z1' z2']].
  simpl in Hreg. rewrite Hreg.
  by destruct (BiquadFilter.run f z1' z2' _) as [o2 z].
Qed.

(** C1, as the code has it.  Processing a block in one call gives the
    output and the final state of processing its first [length rows1]
    frames and then the remaining frames in a second call on the same
    filter, provided the registers [z1], [z2] of every channel at the
    split are [float32] values.  The state array is [float32]: the second
    call resumes from the registers as stored there. *)
Theorem process_split_continuity f dt cols rows1 rows2 :
  wf_filter f ->
  exact_at_boundary f rows1 ->
  one_call f dt cols rows1 rows2 = two_calls f dt cols rows1 rows2.
Proof.
  intros Hwf Hexact. unfold one_call, two_calls.
  rewrite !process_closed_form.
  destruct (negb (Z.of_nat cols =? BiquadFilter.channels f)) eqn:Hcols; [done|].
  cbn [bind ret]. rewrite process_closed_form.
  rewrite channels_with_state, state_with_state, Hcols.
  cbn [bind ret concat_frames].
  set (n := Z.to_nat (BiquadFilter.channels f)).
  set (st := BiquadFilter.state f).
  set (st1 := write_all (fun c => round_registers (channel_run f st rows1 c).2)
                        (seq 0 n) st).
  assert (Hsplit : forall ch, ch ∈ seq 0 n ->
            channel_run f st (rows1 ++ rows2) ch =
            ((channel_run f st rows1 ch).1 ++ (channel_run f st1 rows2 ch).1,
             (channel_run f st1 rows2 ch).2)).
  { intros ch Hch. apply elem_of_seq in Hch.
    apply channel_run_app. subst st1 st n.
    rewrite registers_after by (rewrite ?Hwf; lia).
    apply Hexact. lia. }
  f_equal. f_equal.
  - f_equal. unfold BiquadFilter.empty_like. rewrite map_app.
    rewrite <- store_all_app.
    + apply store_all_ext. intros ch Hch.
      rewrite (Hsplit ch Hch). simpl.
      by rewrite channel_run_with_state.
    + intros ch. rewrite channel_run_length. by rewrite length_map.
  - rewrite with_state_twice. f_equal.
    subst st1. rewrite write_all_twice.
    apply write_all_ext. intros ch Hch.
    rewrite (Hsplit ch Hch). simpl.
    by rewrite channel_run_with_state.
Qed.
End Continuity.

(** ** What a call of [process_block] can change *)

Section Frame.
Context {F : Type} `{Arith F} `{Libm F}.

Lemma same_filter_refl (f : BiquadFilter.t F) : same_filter f f.
Proof. by destruct f. Qed.

Lemma same_filter_all_refl (fs : list (BiquadFilter.t F)) :
  Forall2 same_filter fs fs.
Proof. induction fs; constructor; auto using same_filter_refl. Qed.

Lemma same_chain_refl (c : EQFilterChain.t F) : same_chain c c.
Proof. repeat split. apply same_filter_all_refl. Qed.

Lemma process_same_filter (f f' : BiquadFilter.t F) arr y :
  BiquadFilter.process f arr = inr (y, f') -> same_filter f f'.
Proof.
  unfold BiquadFilter.process. destruct arr as [|dt cols rows]; [done|].
  destruct (negb _); [done|].
  destruct (fold_left _ _ _) as [y' st]. intros [= _ <-]. reflexivity.
Qed.

Lemma process_raises (f : BiquadFilter.t F) arr err :
  BiquadFilter.process f arr = inl err -> ShapeMismatch err.
Proof.
  unfold BiquadFilter.process, ShapeMismatch.
  destruct arr as [|dt cols rows]; [intros [= <-]; auto|].
  destruct (negb _); [intros [= <-]; auto|].
  by destruct (fold_left _ _ _).
Qed.

(** The cascade keeps the coefficients of every filter, only appends to
    the store, and returns a fresh reference unless there is no filter. *)
Lemma cascade_frame (fs : list (BiquadFilter.t F)) h l arr r h' fs' :
  EQFilterChain.cascade fs h l arr = (r, h', fs') ->
  Forall2 same_filter fs fs' /\
  (exists ext, h' = h ++ ext) /\
  (forall p a, r = inr (p, a) -> fs <> [] -> (length h <= p)%nat) /\
  (forall err, r = inl err -> ShapeMismatch err).
Proof.
  revert h l arr r h' fs'.
  induction fs as [|f fs IH]; intros h l arr r h' fs'; simpl.
  - intros [= <- <- <-].
    refine (conj _ (conj _ (conj _ _))); [constructor| |done|done].
    exists []. by rewrite app_nil_r.
  - destruct (BiquadFilter.process f arr) as [e|[y f']] eqn:Hp.
    + intros [= <- <- <-]. refine (conj _ (conj _ (conj _ _))).
      * apply same_filter_all_refl.
      * exists []. by rewrite app_nil_r.
      * done.
      * intros err [= <-]. by apply process_raises in Hp.
    + destruct (EQFilterChain.cascade fs (h ++ [y]) (length h) y)
        as [[r1 h1] fs1] eqn:Hc.
      intros [= <- <- <-].
      destruct (IH _ _ _ _ _ _ Hc) as (Hfs & [ext ->] & Hp' & He).
      refine (conj _ (conj _ (conj _ _))).
      * constructor; [by eapply process_same_filter|done].
      * exists ([y] ++ ext). by rewrite app_assoc.
      * intros p a Hr _. destruct fs as [|f2 fs].
        -- simpl in Hc. injection Hc as <- _ _. injection Hr as <- _. lia.
        -- specialize (Hp' p a Hr). rewrite length_app in Hp'. simpl in Hp'.
           assert (f2 :: fs <> []) as Hne by done. specialize (Hp' Hne). lia.
      * done.
Qed.
End Frame.

Section EngineFrame.
Context {F : Type} `{Arith F} `{Libm F}.

Lemma chain_process_frame (c : EQFilterChain.t F) h l arr r h' c' :
  EQFilterChain.process c h l arr = (r, h', c') ->
  same_chain c c' /\
  (exists ext, h' = h ++ ext) /\
  (forall p a, r = inr (p, a) ->
     (EQFilterChain._filters c = [] /\ p = l /\ a = arr /\ h' = h)
     \/ (EQFilterChain._filters c <> [] /\ (length h <= p)%nat)) /\
  (forall err, r = inl err -> ShapeMismatch err).
Proof.
  unfold EQFilterChain.process.
  destruct (EQFilterChain._filters c) as [|f fs] eqn:Hfs.
  - intros [= <- <- <-]. refine (conj _ (conj _ (conj _ _))).
    + apply same_chain_refl.
    + exists []. by rewrite app_nil_r.
    + intros p a [= <- <-]. by left.
    + done.
  - destruct (EQFilterChain.cascade (f :: fs) h l arr) as [[r1 h1] fs1] eqn:Hc.
    intros [= <- <- <-].
    destruct (cascade_frame _ _ _ _ _ _ _ Hc) as (Hsame & Hext & Hp & He).
    refine (conj _ (conj _ (conj _ _))); [|done| |done].
    + unfold same_chain. simpl. by rewrite Hfs.
    + intros p a Hr. right. split; [done|]. by eapply Hp.
Qed.

(** C2, as the code has it.  A call of [process_block] changes, in the
    engine, nothing but the meter snapshot and the delay registers of the
    chain's filters; in the store it leaves every array the caller holds
    other than the input as it was, and the input too when bypass is on
    or the chain has at least one filter. *)
Theorem process_block_frame (e : EQEngine.t F) h l arr r h' e' :
  h !! l = Some arr ->
  EQEngine.process_block e h l = Some (r, h', e') ->
  only_meter_and_registers e e' /\
  (forall l', (l' < length h)%nat -> l' <> l -> h' !! l' = h !! l') /\
  (EQEngine.bypass e = true
   \/ EQFilterChain._filters (EQEngine._chain e) <> [] ->
   h' !! l = Some arr).
Proof.
  intros Hl. unfold EQEngine.process_block. rewrite Hl. intros [= Hpb].
  assert (Hlt : (l < length h)%nat) by (by eapply lookup_lt_Some).
  unfold EQEngine.process_block_at in Hpb.
  destruct (negb (ndim arr =? 2)%nat || _).
  { injection Hpb as <- <- <-. refine (conj _ (conj _ _)); [|done|done].
    repeat split. apply same_filter_all_refl. }
  destruct (EQEngine.bypass e) eqn:Hbypass.
  - (* bypass: the copy is a fresh array *)
    simpl in Hpb. injection Hpb as <- <- <-.
    refine (conj _ (conj _ _)).
    + repeat split. apply same_filter_all_refl.
    + intros l' Hl' _.
      rewrite lookup_app_l by (rewrite length_insert, length_app; lia).
      rewrite list_lookup_insert_ne by lia.
      by rewrite lookup_app_l.
    + intros _.
      rewrite lookup_app_l by (rewrite length_insert, length_app; lia).
      rewrite list_lookup_insert_ne by lia.
      by rewrite lookup_app_l.
  - destruct (EQFilterChain.process (EQEngine._chain e) h l arr)
      as [[r1 h1] c1] eqn:Hc.
    destruct (chain_process_frame _ _ _ _ _ _ _ Hc) as (Hsame & [ext ->] & Hp & _).
    destruct r1 as [err|[p parr]].
    + injection Hpb as <- <- <-. refine (conj _ (conj _ _)).
      * repeat (split; [reflexivity|]). exact Hsame.
      * intros l' Hl' _. by rewrite lookup_app_l.
      * intros _. by rewrite lookup_app_l.
    + simpl in Hpb. injection Hpb as <- <- <-.
      refine (conj _ (conj _ _)).
      * repeat (split; [reflexivity|]). exact Hsame.
      * intros l' Hl' Hne.
        rewrite lookup_app_l by (rewrite length_insert, length_app; lia).
        destruct (Hp p parr eq_refl) as [(_ & -> & _)|(_ & Hge)].
        -- rewrite list_lookup_insert_ne by done. by rewrite lookup_app_l.
        -- rewrite list_lookup_insert_ne by lia. by rewrite lookup_app_l.
      * intros [?|Hne]; [done|].
        rewrite lookup_app_l by (rewrite length_insert, length_app; lia).
        destruct (Hp p parr eq_refl) as [(Hnil & _)|(_ & Hge)]; [done|].
        rewrite list_lookup_insert_ne by lia. by rewrite lookup_app_l.
Qed.
End EngineFrame.

(** ** Errors: where they are raised and what a failed call leaves behind *)

Section Errors.
Context {F : Type} `{Arith F} `{Libm F}.





Lemma shape_test (e : EQEngine.t F) arr :
  negb (ndim arr =? 2)%nat
  || negb (Z.of_nat (EQEngine.shape1 arr) =? EQEngine.channels e) = true
  <-> bad_shape e arr.
Proof.
  unfold bad_shape. rewrite orb_true_iff, !negb_true_iff.
  rewrite Nat.eqb_neq, Z.eqb_neq. reflexivity.
Qed.



(** The constructor and [set_bands] give consistent engines, and
    [process_block] keeps them so. *)
Lemma init_consistent (sample_rate : F) channels bypass output_gain_db e :
  EQEngine.init sample_rate channels bypass output_gain_db = ret e ->
  consistent e.
Proof. intros [= <-]. split; [done|constructor]. Qed.




(** C6.  For a disabled band the designer returns exactly the identity
    coefficient set, whatever the frequency, the gain, the Q and the
    sample rate. *)
Theorem design_disabled_identity (frequency gain_db q sample_rate : F) :
  design_peaking_eq (EQBand.mk frequency gain_db q false) sample_rate
  = ([of_Z 1; of_Z 0; of_Z 0], [of_Z 1; of_Z 0; of_Z 0]).
Proof. reflexivity. Qed.
End Errors.

(** ** Clamping *)

Section Clamp.
Context {F : Type} `{ArithLaws F}.

Lemma fltb_irrefl (x : F) : (x <? x)%fl = false.
Proof.
  destruct (x <? x)%fl eqn:E; [|done].
  pose proof (fltb_asym x x E). congruence.
Qed.

(** [np.clip] lands between the bounds when there is room between them. *)
Lemma np_clip_within (x lo hi : F) :
  is_nan x = false -> (hi <? lo)%fl = false -> within (np_clip x lo hi) lo hi.
Proof.
  intros Hx Hroom. unfold within, np_clip, np_max, np_min. rewrite Hx.
  destruct (lo <? x)%fl eqn:E1.
  - rewrite Hx. destruct (x <? hi)%fl eqn:E2.
    + split; by apply fltb_asym.
    + split; [done|apply fltb_irrefl].
  - destruct (is_nan lo).
    + split; [apply fltb_irrefl|done].
    + destruct (lo <? hi)%fl eqn:E2.
      * split; [apply fltb_irrefl|done].
      * split; [done|apply fltb_irrefl].
Qed.

(** A value strictly between the bounds is left alone. *)
Lemma np_clip_inside (x lo hi : F) :
  (lo <? x)%fl = true -> (x <? hi)%fl = true -> np_clip x lo hi = x.
Proof.
  intros H1 H2. unfold np_clip, np_max, np_min.
  destruct (is_nan x) eqn:Hx; rewrite ?Hx, ?H1, ?Hx, ?H2; done.
Qed.

Lemma py_max_above (lo x : F) : (lo <? x)%fl = true -> py_max lo x = x.
Proof. intros Hx. unfold py_max. by rewrite Hx. Qed.

Lemma py_max_floor (lo x : F) : (py_max lo x <? lo)%fl = false.
Proof.
  unfold py_max. destruct (lo <? x)%fl eqn:E.
  - by apply fltb_asym.
  - apply fltb_irrefl.
Qed.
End Clamp.

(** ** The coefficient designer and [set_bands] *)

Section Design.
Context {F : Type} `{ArithLaws F} `{Libm F}.

Lemma design_enabled_eq (frequency gain_db q sample_rate : F) :
  let f := np_clip frequency (of_Z 20) (sample_rate / lit 2.1)%fl in
  let q' := py_max (lit 0.05) q in
  let A := cookbook_A gain_db in
  let omega := cookbook_omega f sample_rate in
  let alpha := cookbook_alpha omega q' in
  design_peaking_eq (EQBand.mk frequency gain_db q true) sample_rate
    = (cookbook_b alpha A omega, cookbook_a alpha A omega).
Proof. reflexivity. Qed.


Lemma traverse_ok {A B : Type} (g : A -> result B) (g' : A -> B) (xs : list A) :
  (forall x, g x = ret (g' x)) -> traverse g xs = ret (map g' xs).
Proof.
  intros Hg. induction xs as [|x xs IH]; [done|].
  cbn [traverse]. rewrite Hg, IH. reflexivity.
Qed.

Lemma from_eq_band_ok (band : EQBand.t F) (sample_rate : F) channels :
  1 <= channels ->
  BiquadFilter.from_eq_band band sample_rate channels
  = ret (normalized (design_peaking_eq band sample_rate).1
                    (design_peaking_eq band sample_rate).2 channels).
Proof.
  intros Hch. unfold BiquadFilter.from_eq_band, design_peaking_eq.
  destruct (negb (EQBand.enabled band)); unfold BiquadFilter.init;
    by rewrite (proj2 (Z.ltb_ge _ _) Hch).
Qed.


Lemma chain_set_bands_ok (c : EQFilterChain.t F) (bands : list (EQBand.t F)) :
  1 <= EQFilterChain.channels c ->
  let sr := EQFilterChain.sample_rate c in
  let ch := EQFilterChain.channels c in
  let stored := map (stored_band sr) bands in
  EQFilterChain.set_bands c bands
  = (ret tt,
     EQFilterChain.mk sr ch stored
       (map (fun b => normalized (design_peaking_eq b sr).1
                                 (design_peaking_eq b sr).2 ch)
            (List.filter EQBand.enabled stored))).
Proof.
  intros Hch sr ch stored.
  unfold EQFilterChain.set_bands.
  change (map _ bands) with stored. fold sr ch.
  rewrite (traverse_ok _
             (fun b => normalized (design_peaking_eq b sr).1
                                  (design_peaking_eq b sr).2 ch));
    [done|].
  intros b. by apply from_eq_band_ok.
Qed.

End Design.

(** ** Metering *)

Section Metering.
Context {F : Type} `{ArithLaws F}.

Lemma flat_amap (g : F -> F) (a : ndarray F) : flat (amap g a) = map g (flat a).
Proof.
  destruct a as [dt xs|dt cols rows]; simpl; [done|].
  induction rows as [|row rows IH]; simpl; [done|].
  by rewrite map_app, IH.
Qed.

Lemma size_amap (g : F -> F) (a : ndarray F) : size (amap g a) = size a.
Proof. destruct a; simpl; by rewrite length_map. Qed.

Lemma shape_amap (g : F -> F) (a : ndarray F) : shape (amap g a) = shape a.
Proof. destruct a; simpl; by rewrite length_map. Qed.

Lemma dtype_amap (g : F -> F) (a : ndarray F) : dtype_of (amap g a) = dtype_of a.
Proof. by destruct a. Qed.

Lemma fold_left_fadd_map (g : F -> F) (xs : list F) (acc : F) :
  fold_left fadd (map g xs) acc = fold_left (fun acc x => (acc + g x)%fl) xs acc.
Proof. revert acc. induction xs as [|x xs IH]; intros acc; simpl; [done|apply IH]. Qed.


End Metering.

(** ** Bypass *)

Section Bypass.
Context {F : Type} `{ArithLaws F} `{Libm F} `{!LibmLaws F}.





End Bypass.

(** ** The arithmetic facts, for IEEE-754 doubles *)

Module IEEE_facts.
Import IEEE.

Lemma SFltb_asym x y : SFltb x y = true -> SFltb y x = false.
Proof.
  unfold SFltb, SFcompare.
  destruct x as [sx|sx| |sx mx ex], y as [sy|sy| |sy my ey];
    try destruct sx; try destruct sy; try done;
    change (Pos.compare_cont Eq mx my) with (Pos.compare mx my);
    change (Pos.compare_cont Eq my mx) with (Pos.compare my mx);
    rewrite (Z.compare_antisym ex ey), (Pos.compare_antisym mx my);
    destruct (ex ?= ey); simpl; try done;
    by destruct (mx ?= my)%positive.
Qed.

Lemma digits2_pos_shift (m : positive) (k : positive) :
  Zpos (digits2_pos (Pos.iter xO m k)) = Zpos (digits2_pos m) + Zpos k.
Proof.
  induction k using Pos.peano_ind.
  - simpl. lia.
  - rewrite Pos.iter_succ. simpl. lia.
Qed.

Lemma SFmul_1_r x : valid_binary prec64 emax64 x = true -> SFmul prec64 emax64 x (b64_of_Z 1) = x.
Proof.
  change (b64_of_Z 1) with (S754_finite false 4503599627370496 (-52)).
  destruct x as [s|s| |s m e]; intros Hv; try done; try (by destruct s).
  cbn [valid_binary] in Hv. unfold bounded in Hv.
  apply andb_prop in Hv as [Hc He].
  unfold canonical_mantissa in Hc. apply Z.eqb_eq in Hc. apply Z.leb_le in He.
  unfold SFmul. rewrite xorb_false_r.
  rewrite Pos.mul_comm.
  change (4503599627370496 * m)%positive with (Pos.iter xO m 52).
  unfold binary_round_aux.
  assert (Hs1 : shr_fexp prec64 emax64 (Zpos (Pos.iter xO m 52)) (e + -52) loc_Exact
           = ({| shr_m := Zpos m; shr_r := false; shr_s := false |}, e)).
  { unfold shr_fexp. cbn [Zdigits2]. rewrite digits2_pos_shift.
    replace (fexp prec64 emax64 (Z.pos (digits2_pos m) + 52 + (e + -52)))
      with e by (rewrite <- Hc at 1; f_equal; lia).
    replace (e - (e + -52)) with 52 by lia.
    unfold shr. replace (e + -52 + 52) with e by lia. reflexivity. }
  rewrite Hs1. cbn [shr_m loc_of_shr_record round_nearest_even].
  assert (Hs2 : shr_fexp prec64 emax64 (Zpos m) e loc_Exact
           = ({| shr_m := Zpos m; shr_r := false; shr_s := false |}, e)).
  { unfold shr_fexp. cbn [Zdigits2]. rewrite Hc, Z.sub_diag. reflexivity. }
  rewrite Hs2. cbn [shr_m].
  by rewrite (proj2 (Z.leb_le _ _) He).
Qed.

Lemma shr_1_div2 r : 0 <= shr_m r -> shr_m (shr_1 r) = shr_m r / 2.
Proof.
  destruct r as [m r s]. simpl. intros Hm.
  destruct m as [|[p|p|]|p]; simpl; try done; try lia.
  - rewrite Pos2Z.inj_xI. apply Z.div_unique with (r := 1); lia.
  - rewrite Pos2Z.inj_xO. apply Z.div_unique with (r := 0); lia.
Qed.

Lemma iter_shr_1_div (k : positive) r :
  0 <= shr_m r -> shr_m (SpecFloat.iter_pos shr_1 k r) = shr_m r / 2 ^ Zpos k.
Proof.
  revert r. induction k as [k IH|k IH|]; intros r Hr; cbn [SpecFloat.iter_pos].
  - assert (0 <= shr_m (shr_1 r)) by (rewrite shr_1_div2 by done; by apply Z.div_pos).
    assert (0 <= shr_m (SpecFloat.iter_pos shr_1 k (shr_1 r))) by (rewrite IH by done; apply Z.div_pos; lia).
    rewrite !IH, shr_1_div2 by done.
    rewrite !Z.div_div by lia. f_equal.
    replace (Z.pos k~1) with (1 + Z.pos k + Z.pos k) by lia.
    rewrite !Z.pow_add_r by lia. change (2 ^ 1) with 2. lia.
  - assert (0 <= shr_m (SpecFloat.iter_pos shr_1 k r)) by (rewrite IH by done; apply Z.div_pos; lia).
    rewrite !IH by done.
    rewrite !Z.div_div by lia. f_equal.
    replace (Z.pos k~0) with (Z.pos k + Z.pos k) by lia.
    by rewrite Z.pow_add_r by lia.
  - rewrite shr_1_div2 by done. reflexivity.
Qed.

Lemma digits2_pos_lower (p : positive) : 2 ^ (Zpos (digits2_pos p) - 1) <= Zpos p.
Proof.
  induction p as [p IH|p IH|]; simpl digits2_pos; [| |done].
  - rewrite Pos2Z.inj_succ.
    replace (Z.succ (Z.pos (digits2_pos p)) - 1) with (Z.succ (Z.pos (digits2_pos p) - 1)) by lia.
    rewrite Z.pow_succ_r by lia. set (t := 2 ^ _) in *. clearbody t. lia.
  - rewrite Pos2Z.inj_succ.
    replace (Z.succ (Z.pos (digits2_pos p)) - 1) with (Z.succ (Z.pos (digits2_pos p) - 1)) by lia.
    rewrite Z.pow_succ_r by lia. set (t := 2 ^ _) in *. clearbody t. lia.
Qed.

Lemma shr_fexp_positive (m : positive) e l :
  -1022 <= e ->
  0 < shr_m (shr_fexp prec64 emax64 (Zpos m) e l).1
  /\ e <= (shr_fexp prec64 emax64 (Zpos m) e l).2.
Proof.
  intros He. unfold shr_fexp, shr. cbn [Zdigits2].
  assert (Hrec : shr_m (shr_record_of_loc (Zpos m) l) = Zpos m)
    by (by destruct l as [|[]]).
  destruct (fexp prec64 emax64 (Z.pos (digits2_pos m) + e) - e) as [|k|k] eqn:Hk;
    cbn [fst snd]; rewrite ?Hrec; try (split; lia).
  rewrite iter_shr_1_div by (rewrite Hrec; lia). rewrite Hrec.
  split; [|lia].
  unfold fexp, emin, prec64, emax64 in Hk.
  pose proof (digits2_pos_lower m) as Hd.
  assert (Zpos k = Zpos (digits2_pos m) - 53) as Hk' by lia.
  apply Z.lt_le_trans with (2 ^ 52); [done|].
  apply Z.div_le_lower_bound; [lia|].
  rewrite <- Z.pow_add_r by lia.
  replace (Z.pos k + 52) with (Zpos (digits2_pos m) - 1) by lia. done.
Qed.

Lemma round_nearest_even_ge m l : m <= round_nearest_even m l.
Proof. destruct l as [|[]]; simpl; try lia. destruct (Z.even m); lia. Qed.

Lemma binary_round_aux_signed s (m : positive) e l :
  -1022 <= e -> signed_result s (binary_round_aux prec64 emax64 s (Zpos m) e l).
Proof.
  intros He. unfold binary_round_aux.
  destruct (shr_fexp_positive m e l He) as [Hm1 He1].
  destruct (shr_fexp prec64 emax64 (Zpos m) e l) as [r1 e1]. cbn [fst snd] in *.
  pose proof (round_nearest_even_ge (shr_m r1) (loc_of_shr_record r1)) as Hge.
  destruct (round_nearest_even (shr_m r1) (loc_of_shr_record r1)) as [|m2|m2]; try lia.
  destruct (shr_fexp_positive m2 e1 loc_Exact ltac:(lia)) as [Hm3 _].
  destruct (shr_fexp prec64 emax64 (Zpos m2) e1 loc_Exact) as [r3 e3]. cbn [fst snd] in *.
  destruct (shr_m r3) as [|m3|m3]; try lia.
  by destruct (e3 <=? emax64 - prec64).
Qed.

Lemma binary_round_signed s (p : positive) :
  signed_result s (binary_round prec64 emax64 s p 0).
Proof.
  unfold binary_round, shl_align.
  assert (Hfexp : -52 <= fexp prec64 emax64 (Z.pos (digits2_pos p) + 0))
    by (unfold fexp, emin, prec64, emax64; lia).
  destruct (fexp prec64 emax64 (Z.pos (digits2_pos p) + 0) - 0) eqn:Hd;
    apply binary_round_aux_signed; lia.
Qed.

Lemma b64_of_Z_not_nan n : b64_is_nan (b64_of_Z n) = false.
Proof.
  unfold b64_of_Z, binary_normalize. destruct n as [|p|p]; [done| |].
  - pose proof (binary_round_signed false p) as Hs.
    by destruct (binary_round prec64 emax64 false p 0).
  - pose proof (binary_round_signed true p) as Hs.
    by destruct (binary_round prec64 emax64 true p 0).
Qed.

Lemma SFdiv_0_l n : 0 < n -> SFdiv prec64 emax64 (b64_of_Z 0) (b64_of_Z n) = b64_of_Z 0.
Proof.
  intros Hn. destruct n as [|p|p]; try lia.
  change (b64_of_Z 0) with (S754_zero false).
  unfold b64_of_Z, binary_normalize.
  pose proof (binary_round_signed false p) as Hs.
  destruct (binary_round prec64 emax64 false p 0); simpl in *; try done; by subst.
Qed.

Lemma SFmul_zero x : b64_is_zero x -> SFmul prec64 emax64 x x = b64_of_Z 0.
Proof. destruct x as [[]| | |]; done. Qed.
End IEEE_facts.

#[global] Instance IEEE_laws : ArithLaws spec_float := {|
  fvalid := IEEE.b64_valid;
  is_zero := IEEE.b64_is_zero;
  is_zero_0 := I;
  fltb_asym := IEEE_facts.SFltb_asym;
  fltb_m1_1 := eq_refl;
  is_nan_of_Z := IEEE_facts.b64_of_Z_not_nan;
  fmul_1_r := IEEE_facts.SFmul_1_r;
  cast32_0 := eq_refl;
  cast32_1 := eq_refl;
  fmul_zero := IEEE_facts.SFmul_zero;
  fadd_0_0 := eq_refl;
  fdiv_0_l := IEEE_facts.SFdiv_0_l;
  fsqrt_0 := eq_refl;
|}.

(** ** The arithmetic facts, for the reals *)

Module Ideal_facts.
Import Ideal.
Local Open Scope R_scope.

Lemma Rltb_true x y : Rltb x y = true <-> x < y.
Proof. unfold Rltb. destruct (Rlt_dec x y); split; (done || lra). Qed.

Lemma Rltb_false x y : Rltb x y = false <-> y <= x.
Proof. unfold Rltb. destruct (Rlt_dec x y); split; (done || lra). Qed.

Lemma Rltb_asym x y : Rltb x y = true -> Rltb y x = false.
Proof. rewrite Rltb_true, Rltb_false. lra. Qed.

Lemma Rltb_m1_1 : Rltb (-1) 1 = true.
Proof. apply Rltb_true. lra. Qed.

Lemma Rmult_1_valid (x : R) : True -> x * 1 = x.
Proof. intros _. lra. Qed.

Lemma Rsquare_zero (x : R) : x = 0 -> x * x = 0.
Proof. intros ->. lra. Qed.

Lemma Rdiv_0_l_Z (n : Z) : (0 < n)%Z -> 0 / IZR n = 0.
Proof. intros _. unfold Rdiv. apply Rmult_0_l. Qed.

Lemma Rpower_0_r (x : R) : Rpower x 0 = 1.
Proof. unfold Rpower. rewrite Rmult_0_l. apply exp_0. Qed.
End Ideal_facts.

#[global] Instance Ideal_laws : ArithLaws R := {|
  fvalid := fun _ => True;
  is_zero := fun x => x = 0%R;
  is_zero_0 := eq_refl;
  fltb_asym := Ideal_facts.Rltb_asym;
  fltb_m1_1 := Ideal_facts.Rltb_m1_1;
  is_nan_of_Z := fun _ => eq_refl;
  fmul_1_r := Ideal_facts.Rmult_1_valid;
  cast32_0 := eq_refl;
  cast32_1 := eq_refl;
  fmul_zero := Ideal_facts.Rsquare_zero;
  fadd_0_0 := Rplus_0_l 0%R;
  fdiv_0_l := Ideal_facts.Rdiv_0_l_Z;
  fsqrt_0 := sqrt_0;
|}.

#[global] Instance Ideal_libm_laws : LibmLaws R := {|
  fpow_0 := Ideal_facts.Rpower_0_r;
|}.

(** ** A filter whose outputs are its inputs *)

Section Columns.
Context {F : Type} `{Arith F}.






End Columns.

Module Ideal_identity.
Import Ideal.
Local Open Scope R_scope.

Lemma lit_2_1 : lit (F:=R) 2.1 = 21 / 10.
Proof. reflexivity. Qed.
Lemma lit_0_05 : lit (F:=R) 0.05 = 5 / 100.
Proof. reflexivity. Qed.




End Ideal_identity.

(** ** Examples in IEEE arithmetic *)

Module IEEE_examples.
Import Examples_IEEE.

(** C1, as stated, fails: the feed-forward filter [fir] gives 0 for the
    second frame when the two frames are processed in one call, and 1638.4
    when they are processed in two calls, because the register [z1] is
    rounded to [float32] in between. *)
Lemma split_changes_output :
  BiquadFilter.init fir_b fir_a 1 = ret fir /\
  outputs (one_call fir Float64 1 [[loud]] [[anti]]) = Some [loud; of_Z 0] /\
  outputs (two_calls fir Float64 1 [[loud]] [[anti]]) = Some [loud; residue] /\
  (of_Z 1000 <? residue)%fl = true /\
  one_call fir Float64 1 [[loud]] [[anti]] <> two_calls fir Float64 1 [[loud]] [[anti]].
Proof.
  refine (conj _ (conj _ (conj _ (conj _ _)))); try (vm_compute; reflexivity).
  intros Heq. apply (f_equal outputs) in Heq. vm_compute in Heq. discriminate Heq.
Qed.

(** Continuity across a split, at a filter whose registers are [float32]
    values there. *)
Lemma process_split_continuity_witness :
  wf_filter dyadic /\ exact_at_boundary dyadic frames1 /\
  one_call dyadic Float32 2 frames1 frames2 = two_calls dyadic Float32 2 frames1 frames2.
Proof.
  assert (Hwf : wf_filter dyadic) by reflexivity.
  assert (Hex : exact_at_boundary dyadic frames1).
  { intros ch Hch. destruct ch as [|[|ch]]; [vm_compute; reflexivity..|].
    vm_compute in Hch. lia. }
  exact (conj Hwf (conj Hex
           (process_split_continuity dyadic Float32 2 frames1 frames2 Hwf Hex))).
Defined.
End IEEE_examples.

(** ** Examples in real arithmetic *)

Module Ideal_examples.
Import Ideal Examples_Ideal.
Local Open Scope R_scope.

Lemma engine_init : EQEngine.init (F:=R) 48000 2 false (-3) = ret engine.
Proof. reflexivity. Qed.

Lemma band_design :
  design_peaking_eq band 48000 = ([11; 0; -9], [11 / 10; 0; 9 / 10]).
Proof.
  unfold band. rewrite (design_enabled_eq (F:=R) 12000 40 (1/2) 48000).
  cbv zeta.
  rewrite (py_max_above (F:=R))
    by (apply Ideal_facts.Rltb_true; rewrite Ideal_identity.lit_0_05; lra).
  rewrite (np_clip_inside (F:=R)).
  2:{ apply Ideal_facts.Rltb_true. simpl. lra. }
  2:{ apply Ideal_facts.Rltb_true. rewrite Ideal_identity.lit_2_1. simpl. lra. }
  assert (Hom : cookbook_omega (F:=R) 12000 48000 = PI / 2).
  { unfold cookbook_omega. simpl. lra. }
  assert (HA : cookbook_A (F:=R) 40 = 10).
  { unfold cookbook_A. simpl. replace (40 / 40) with 1 by lra.
    apply Rpower_1. lra. }
  rewrite Hom, HA. unfold cookbook_alpha, cookbook_b, cookbook_a. simpl.
  rewrite sin_PI2, cos_PI2. repeat f_equal; lra.
Qed.

Lemma band_stored : stored_band (F:=R) 48000 band = band.
Proof.
  unfold stored_band, band. cbn [EQBand.frequency EQBand.gain_db EQBand.q EQBand.enabled].
  rewrite (np_clip_inside (F:=R)); [done| |].
  - apply Ideal_facts.Rltb_true. simpl. lra.
  - apply Ideal_facts.Rltb_true. rewrite Ideal_identity.lit_2_1. simpl. lra.
Qed.

Lemma engine_set_bands : EQEngine.set_bands engine [band] = (ret tt, tuned).
Proof.
  unfold EQEngine.set_bands.
  rewrite (chain_set_bands_ok (F:=R) (EQEngine._chain engine) [band])
    by (simpl; lia).
  cbv zeta. cbn [map EQFilterChain.sample_rate EQFilterChain.channels EQEngine._chain engine EQFilterChain.init].
  rewrite band_stored. cbn [List.filter EQBand.enabled band map].
  fold band. rewrite band_design. reflexivity.
Qed.

Lemma gain_below_one : Rpower 10 (-3 / 20) < 1.
Proof.
  unfold Rpower. rewrite <- exp_0. apply exp_increasing.
  assert (0 < ln 10) by (rewrite <- ln_1; apply ln_increasing; lra).
  nra.
Qed.

(** C2, as stated, fails: with the band [band] set, processing one frame
    leaves the chain with other delay registers than before, so more
    than the meter snapshot has changed. *)
Lemma process_block_moves_registers :
  exists r h' e',
    EQEngine.set_bands engine [band] = (ret tt, tuned) /\
    EQEngine.process_block tuned [frame] 0%nat = Some (r, h', e') /\
    EQEngine._chain e' <> EQEngine._chain tuned.
Proof.
  eexists _, _, _. split; [apply engine_set_bands|]. split; [reflexivity|].
  intros Heq.
  apply (f_equal (fun c => map BiquadFilter.state (EQFilterChain._filters c))) in Heq.
  cbn in Heq. injection Heq as _ Hz2 _ _. lra.
Qed.

(** With no filter and bypass off the array returned by the chain is the
    caller's own, and [processed *= gain] scales it in place: after the
    call the caller's block holds its samples times the output gain. *)
Lemma process_block_scales_input_in_place :
  exists p h' e',
    EQEngine.process_block engine [frame] 0%nat = Some (ret p, h', e') /\
    h' !! 0%nat = Some (Array2 Float32 2 [[1 / 2 * Rpower 10 (-3 / 20);
                                          -2 * Rpower 10 (-3 / 20)]]) /\
    h' !! 0%nat <> Some frame.
Proof.
  eexists _, _, _. split; [reflexivity|]. split; [reflexivity|].
  cbn. intros [= Hx _]. pose proof gain_below_one. lra.
Qed.


Lemma frame_shape_ok : ~ bad_shape engine frame.
Proof. intros [Hd|Hc]; [by apply Hd|by apply Hc]. Qed.



(** The frame property, at the engine [tuned] and one frame. *)
Lemma process_block_frame_witness :
  exists r h' e',
    EQEngine.process_block tuned [frame] 0%nat = Some (r, h', e') /\
    only_meter_and_registers tuned e' /\
    (forall l', (l' < length [frame])%nat -> l' <> 0%nat -> h' !! l' = [frame] !! l') /\
    (EQEngine.bypass tuned = true
     \/ EQFilterChain._filters (EQEngine._chain tuned) <> [] ->
     h' !! 0%nat = Some frame).
Proof.
  eexists _, _, _. split; [reflexivity|].
  exact (process_block_frame tuned [frame] 0%nat frame _ _ _ eq_refl eq_refl).
Defined.




End Ideal_examples.

(** * Further properties of the code *)

(** ** [BiquadFilter.process]: shape, channels, empty blocks *)

Section BiquadShape.
Context {F : Type} `{Arith F}.
Implicit Types (f : BiquadFilter.t F) (st : list (F * F)) (rows y : list (list F)).

Lemma store_column_lengths dt y ch (outs : list F) :
  length outs = length y ->
  map length (BiquadFilter.store_column dt y ch outs) = map length y.
Proof.
  unfold BiquadFilter.store_column. revert outs.
  induction y as [|row y IH]; intros [|out outs] Hlen; simpl in *; try done.
  rewrite length_insert. f_equal. apply IH. lia.
Qed.

Lemma store_all_lengths dt (o : nat -> list F) chs y :
  (forall ch, length (o ch) = length y) ->
  map length (store_all dt o chs y) = map length y.
Proof.
  revert y. induction chs as [|c cs IH]; intros y Hlen; [done|].
  unfold store_all in *. cbn [fold_left].
  rewrite IH.
  - apply store_column_lengths. apply Hlen.
  - intros ch. rewrite Hlen. symmetry. apply store_column_length. apply Hlen.
Qed.

Lemma empty_like_lengths rows :
  map length (BiquadFilter.empty_like rows) = map length rows.
Proof.
  unfold BiquadFilter.empty_like. induction rows as [|row rows IH]; simpl; [done|].
  by rewrite length_map, IH.
Qed.

(** What a successful [process] returns, shape-wise. *)
Lemma process_shape f block (out : ndarray F) f' :
  BiquadFilter.process f block = ret (out, f') ->
  exists dt cols rows yrows,
    block = Array2 dt cols rows /\ out = Array2 dt cols yrows /\
    map length yrows = map length rows /\
    f' = BiquadFilter.with_state f (BiquadFilter.state f') /\
    length (BiquadFilter.state f') = length (BiquadFilter.state f).
Proof.
  destruct block as [dt xs|dt cols rows]; [done|].
  rewrite process_closed_form. destruct (negb _); [done|].
  cbv zeta. intros [= <- <-].
  exists dt, cols, rows. eexists. split; [done|]. split; [done|].
  split; [|split; [done|]].
  - rewrite store_all_lengths, empty_like_lengths; [done|].
    intros ch. rewrite channel_run_length.
    unfold BiquadFilter.empty_like. by rewrite length_map.
  - rewrite state_with_state. apply write_all_length.
Qed.

Lemma map_length_shape dt cols (rows yrows : list (list F)) :
  map length yrows = map length rows ->
  shape (Array2 dt cols yrows) = shape (Array2 dt cols rows) /\
  (Forall (fun row => length row = cols) rows ->
   Forall (fun row => length row = cols) yrows).
Proof.
  intros Hlen. split.
  - simpl. f_equal. by rewrite <- (length_map length yrows), Hlen, length_map.
  - intros Hrows. apply Forall_forall. intros row Hrow.
    assert (length row ∈ map length yrows) as Hin by (by apply list_elem_of_fmap_2).
    rewrite Hlen in Hin. apply list_elem_of_fmap in Hin as (row' & -> & Hrow').
    by apply (proj1 (Forall_forall _ _) Hrows).
Qed.

(** X1.  A successful [process] returns an array of the dtype and shape of
    the block, each row as long as the row of the block at its place, and a
    filter with the same coefficients and channel count and a state array
    of the same size. *)
Theorem process_keeps_shape f block (out : ndarray F) f' :
  BiquadFilter.process f block = ret (out, f') ->
  ndim block = 2%nat /\
  shape out = shape block /\ dtype_of out = dtype_of block /\
  (wf_array block -> match out with
                     | Array1 _ _ => False
                     | Array2 _ cols yrows =>
                         Forall (fun row => length row = cols) yrows
                     end) /\
  same_filter f f' /\
  (wf_filter f -> wf_filter f').
Proof.
  intros Hp.
  destruct (process_shape f block out f' Hp)
    as (dt & cols & rows & yrows & -> & -> & Hlen & Hf & Hst).
  destruct (map_length_shape dt cols rows yrows Hlen) as [Hshape Hrows].
  refine (conj eq_refl (conj Hshape (conj eq_refl (conj _ (conj Hf _))))).
  - intros [_ Hwf]. by apply Hrows.
  - unfold wf_filter. rewrite Hst. intros ->. by rewrite Hf.
Qed.
End BiquadShape.

Section BiquadChannels.
Context {F : Type} `{Arith F}.
Implicit Types (f : BiquadFilter.t F) (st : list (F * F)) (rows y : list (list F)).

Lemma nth_insert_row (row : list F) c ch (v d : F) :
  (ch < length row)%nat ->
  nth ch (<[c := v]> row) d = if decide (c = ch) then v else nth ch row d.
Proof.
  intros Hlt. rewrite !nth_lookup. destruct (decide (c = ch)) as [->|Hne].
  - by rewrite list_lookup_insert_eq.
  - by rewrite list_lookup_insert_ne.
Qed.

Lemma column_store_column dt y c ch (outs : list F) :
  length outs = length y ->
  Forall (fun row => (ch < length row)%nat) y ->
  BiquadFilter.column (BiquadFilter.store_column dt y c outs) ch
  = if decide (c = ch) then map (cast dt) outs else BiquadFilter.column y ch.
Proof.
  unfold BiquadFilter.column, BiquadFilter.store_column. revert outs.
  induction y as [|row y IH]; intros [|out outs] Hlen Hrows; simpl in *; try done.
  - by destruct (decide (c = ch)).
  - apply Forall_cons in Hrows as [Hrow Hrows].
    rewrite nth_insert_row by done. rewrite IH by (done || lia).
    by destruct (decide (c = ch)).
Qed.

Lemma column_store_all dt (o : nat -> list F) chs y ch :
  (forall c, length (o c) = length y) ->
  Forall (fun row => (ch < length row)%nat) y ->
  BiquadFilter.column (store_all dt o chs y) ch
  = if decide (ch ∈ chs) then map (cast dt) (o ch) else BiquadFilter.column y ch.
Proof.
  revert y. induction chs as [|c cs IH]; intros y Hlen Hrows.
  - destruct (decide (ch ∈ [])) as [Hin|_]; [|done]. by apply elem_of_nil in Hin.
  - unfold store_all in *. cbn [fold_left].
    assert (Hlens : map length (BiquadFilter.store_column dt y c (o c)) = map length y)
      by (apply store_column_lengths, Hlen).
    rewrite IH.
    + rewrite column_store_column by (done || apply Hlen).
      destruct (decide (ch ∈ cs)) as [Hin|Hnin].
      * destruct (decide (ch ∈ c :: cs)) as [_|Hn]; [done|].
        exfalso. apply Hn. by right.
      * destruct (decide (c = ch)) as [->|Hne].
        -- destruct (decide (ch ∈ ch :: cs)) as [_|Hn]; [done|].
           exfalso. apply Hn. left.
        -- destruct (decide (ch ∈ c :: cs)) as [Hin|_]; [|done].
           apply elem_of_cons in Hin as [->|Hin]; done.
    + intros c'. rewrite Hlen. symmetry. apply store_column_length, Hlen.
    + apply Forall_forall. intros row Hrow.
      assert (length row ∈ map length (BiquadFilter.store_column dt y c (o c)))
        as Hin by (by apply list_elem_of_fmap_2).
      rewrite Hlens in Hin. apply list_elem_of_fmap in Hin as (row' & -> & Hrow').
      by apply (proj1 (Forall_forall _ _) Hrows).
Qed.

(** X2.  Channels are independent.  For a block whose rows have [cols]
    entries, column [ch] of the array [process] returns is the recurrence
    run over column [ch] of the block from the register pair [ch], each
    output stored in the dtype of the block, and register pair [ch] of the
    new state is the final pair rounded to [float32]: neither depends on
    any other channel's samples or registers. *)
Theorem process_channel_by_channel f dt cols rows yrows f' ch :
  BiquadFilter.process f (Array2 dt cols rows) = ret (Array2 dt cols yrows, f') ->
  Forall (fun row => length row = cols) rows ->
  wf_filter f ->
  (ch < cols)%nat ->
  let '(z1, z2) := registers (BiquadFilter.state f) ch in
  let '(outs, z) := BiquadFilter.run f z1 z2 (BiquadFilter.column rows ch) in
  BiquadFilter.column yrows ch = map (cast dt) outs /\
  registers (BiquadFilter.state f') ch = round_registers z.
Proof.
  intros Hp Hrows Hwf Hch.
  rewrite process_closed_form in Hp.
  destruct (negb _) eqn:Hcols; [done|].
  apply negb_false_iff, Z.eqb_eq in Hcols.
  cbv zeta in Hp. injection Hp as <- <-.
  pose proof (registers_after f (BiquadFilter.state f) rows ch) as Hreg.
  rewrite state_with_state, Hreg by (rewrite ?Hwf; lia). clear Hreg.
  rewrite column_store_all.
  - destruct (decide (ch ∈ seq 0 (Z.to_nat (BiquadFilter.channels f)))) as [_|Hn].
    + unfold channel_run.
      destruct (registers (BiquadFilter.state f) ch) as [z1 z2].
      by destruct (BiquadFilter.run f z1 z2 _) as [outs z].
    + exfalso. apply Hn, elem_of_seq. lia.
  - intros c. rewrite channel_run_length.
    unfold BiquadFilter.empty_like. by rewrite length_map.
  - unfold BiquadFilter.empty_like. apply Forall_map.
    eapply Forall_impl; [exact Hrows|]. simpl. intros row Hrow.
    rewrite length_map. lia.
Qed.

(** X3.  A block without frames.  [process] returns the empty block of
    the same dtype and channel count, and leaves a filter whose registers
    are [float32] values exactly as it was. *)
Theorem process_no_frames f dt cols :
  Z.of_nat cols = BiquadFilter.channels f ->
  Forall (fun z => round_registers z = z) (BiquadFilter.state f) ->
  BiquadFilter.process f (Array2 dt cols []) = ret (Array2 dt cols [], f).
Proof.
  intros Hcols Hst. rewrite process_closed_form, Hcols, Z.eqb_refl. cbn [negb].
  cbv zeta. f_equal. f_equal.
  - f_equal. generalize (seq 0 (Z.to_nat (BiquadFilter.channels f))).
    intros chs. unfold store_all. induction chs as [|c cs IH]; [done|].
    cbn [fold_left]. unfold BiquadFilter.store_column at 2. simpl. apply IH.
  - transitivity (BiquadFilter.with_state f (BiquadFilter.state f));
      [|by destruct f].
    f_equal. apply list_eq. intros i. rewrite write_all_lookup.
    destruct (decide (i ∈ _)) as [_|_]; [|done].
    destruct (BiquadFilter.state f !! i) as [z|] eqn:Hz; [|done].
    simpl. f_equal. unfold channel_run, registers.
    rewrite nth_lookup, Hz. simpl. destruct z as [z1 z2]. simpl.
    by apply (Forall_lookup_1 _ _ _ _ Hst Hz).
Qed.
End BiquadChannels.

(** ** [EQFilterChain]: cascading and replacing the bands *)

Section ChainProps.
Context {F : Type} `{Arith F}.

Lemma process_as_cascade (c : EQFilterChain.t F) h l arr :
  EQFilterChain.process c h l arr =
  let '(r, h', fs') := EQFilterChain.cascade (EQFilterChain._filters c) h l arr in
  (r, h', with_filters c fs').
Proof.
  unfold EQFilterChain.process.
  destruct c as [sr ch bs fs]. cbn [EQFilterChain._filters].
  by destruct fs.
Qed.

Lemma cascade_app (fs1 fs2 : list (BiquadFilter.t F)) h l arr :
  EQFilterChain.cascade (fs1 ++ fs2) h l arr =
  let '(r1, h1, fs1') := EQFilterChain.cascade fs1 h l arr in
  match r1 with
  | inl e => (inl e, h1, fs1' ++ fs2)
  | inr (p, a) =>
      let '(r2, h2, fs2') := EQFilterChain.cascade fs2 h1 p a in
      (r2, h2, fs1' ++ fs2')
  end.
Proof.
  revert h l arr. induction fs1 as [|f fs1 IH]; intros h l arr.
  - simpl. by destruct (EQFilterChain.cascade fs2 h l arr) as [[r2 h2] fs2'].
  - cbn [app EQFilterChain.cascade].
    destruct (BiquadFilter.process f arr) as [e|[y f']]; [done|].
    unfold alloc. rewrite IH.
    destruct (EQFilterChain.cascade fs1 (h ++ [y]) (length h) y) as [[r1 h1] fs1'].
    destruct r1 as [e|[p a]]; [done|].
    by destruct (EQFilterChain.cascade fs2 h1 p a) as [[r2 h2] fs2'].
Qed.

(** X4.  The chain is the composition of its filters in list order:
    processing with the filters [fs1 ++ fs2] is processing with [fs1] and
    then processing what that returned with [fs2]; when a filter of [fs1]
    raises, no filter of [fs2] is run. *)
Theorem chain_process_composes (c : EQFilterChain.t F) fs1 fs2 h l arr :
  EQFilterChain.process (with_filters c (fs1 ++ fs2)) h l arr
  = process_twice c fs1 fs2 h l arr.
Proof.
  unfold process_twice. rewrite !process_as_cascade.
  cbn [with_filters EQFilterChain._filters]. rewrite cascade_app.
  destruct (EQFilterChain.cascade fs1 h l arr) as [[r1 h1] fs1'].
  destruct r1 as [e|[p a]]; [done|].
  rewrite process_as_cascade. cbn [with_filters EQFilterChain._filters].
  by destruct (EQFilterChain.cascade fs2 h1 p a) as [[r2 h2] fs2'].
Qed.
End ChainProps.

Section SetBandsAgain.
Context {F : Type} `{ArithLaws F} `{Libm F}.

(** Clipping twice to the same bounds is clipping once. *)
Lemma np_clip_idempotent (x lo hi : F) :
  is_nan lo = false ->
  np_clip (np_clip x lo hi) lo hi = np_clip x lo hi.
Proof.
  intros Hlo. unfold np_clip, np_max, np_min.
  destruct (is_nan x) eqn:Hx; rewrite ?Hx; [done|].
  destruct (lo <? x)%fl eqn:E1; rewrite ?Hx.
  - destruct (x <? hi)%fl eqn:E2; rewrite ?Hx, ?E1, ?Hx, ?E2; [done|].
    destruct (is_nan hi) eqn:Hhi; rewrite ?Hhi; [done|].
    destruct (lo <? hi)%fl eqn:E3; rewrite ?Hhi, ?Hlo, ?E3, ?fltb_irrefl; done.
  - rewrite Hlo.
    destruct (lo <? hi)%fl eqn:E3.
    + by rewrite Hlo, fltb_irrefl, Hlo, E3.
    + destruct (is_nan hi) eqn:Hhi; rewrite ?Hhi; [done|].
      by rewrite E3, Hlo, E3.
Qed.

Lemma stored_band_idempotent (sr : F) (b : EQBand.t F) :
  stored_band sr (stored_band sr b) = stored_band sr b.
Proof.
  unfold stored_band. cbn [EQBand.frequency EQBand.gain_db EQBand.q EQBand.enabled].
  by rewrite np_clip_idempotent by apply is_nan_of_Z.
Qed.

(** X5.  Giving a chain its own band list back changes nothing in the
    list: once [set_bands] has succeeded, [set_bands] on the bands the
    chain then reports returns the chain as [set_bands] left it, with the
    same stored bands and the same fresh filters. *)
Theorem set_bands_again (c c1 : EQFilterChain.t F) (bands : list (EQBand.t F)) :
  1 <= EQFilterChain.channels c ->
  EQFilterChain.set_bands c bands = (ret tt, c1) ->
  EQFilterChain.set_bands c1 (EQFilterChain.bands c1) = (ret tt, c1).
Proof.
  intros Hch. rewrite (chain_set_bands_ok c bands Hch). cbv zeta.
  intros [= <-].
  rewrite chain_set_bands_ok by done. cbv zeta.
  cbn [EQFilterChain.bands EQFilterChain._bands EQFilterChain.sample_rate
       EQFilterChain.channels].
  rewrite <- list_fmap_compose.
  rewrite (list_fmap_ext (stored_band (EQFilterChain.sample_rate c)
                          ∘ stored_band (EQFilterChain.sample_rate c))
                         (stored_band (EQFilterChain.sample_rate c)));
    [done|].
  intros i b _. apply stored_band_idempotent.
Qed.
End SetBandsAgain.

(** ** The designer and the constructor, in real arithmetic *)

Module Ideal_design.
Import Ideal.
Local Open Scope R_scope.

Lemma np_clip_Rmin_Rmax (x lo hi : R) : np_clip x lo hi = Rmin (Rmax x lo) hi.
Proof.
  unfold np_clip, np_max, np_min. cbn [is_nan fltb arith]. unfold Rltb.
  destruct (Rlt_dec lo x) as [H1|H1].
  - rewrite (Rmax_left x lo) by lra.
    destruct (Rlt_dec x hi); [rewrite Rmin_left|rewrite Rmin_right]; lra.
  - rewrite (Rmax_right x lo) by lra.
    destruct (Rlt_dec lo hi); [rewrite Rmin_left|rewrite Rmin_right]; lra.
Qed.

(** X6.  In real arithmetic [EQBand.clip] is the clamp: with
    [min_freq <= max_freq] a frequency below the range becomes [min_freq],
    one above it becomes [max_freq], one inside is kept; gain, Q and the
    enabled flag are copied.  When the bounds are crossed the result is
    [max_freq]. *)
Theorem clip_is_clamp (b : EQBand.t R) (min_freq max_freq : R) :
  let f := EQBand.frequency b in
  let b' := EQBand.clip b min_freq max_freq in
  EQBand.frequency b' = Rmin (Rmax f min_freq) max_freq /\
  (min_freq <= max_freq ->
   (f < min_freq -> EQBand.frequency b' = min_freq) /\
   (max_freq < f -> EQBand.frequency b' = max_freq) /\
   (min_freq <= f <= max_freq -> EQBand.frequency b' = f)) /\
  (max_freq < min_freq -> EQBand.frequency b' = max_freq) /\
  EQBand.gain_db b' = EQBand.gain_db b /\
  EQBand.q b' = EQBand.q b /\
  EQBand.enabled b' = EQBand.enabled b.
Proof.
  intros f b'. subst b'. unfold EQBand.clip.
  cbn [EQBand.frequency EQBand.gain_db EQBand.q EQBand.enabled].
  rewrite np_clip_Rmin_Rmax. fold f.
  refine (conj eq_refl (conj _ (conj _ (conj eq_refl (conj eq_refl eq_refl))))).
  - intros Hle. unfold Rmin, Rmax.
    repeat split; intros; repeat (destruct (Rle_dec _ _)); lra.
  - intros Hlt. unfold Rmin, Rmax. repeat (destruct (Rle_dec _ _)); lra.
Qed.

Lemma cookbook_A_opposite (g : R) : cookbook_A (0 - g) = / cookbook_A g.
Proof.
  unfold cookbook_A. cbn [fpow fdiv fsub of_Z libm arith].
  replace ((0 - g) / 40) with (- (g / 40)) by lra.
  apply Rpower_Ropp.
Qed.

(** X7.  Boost and cut are inverse to each other: in real arithmetic the
    coefficients designed for the gain [-g] are those designed for [+g]
    with numerator and denominator exchanged, for every band and sample
    rate. *)
Theorem design_cut_inverts_boost (band : EQBand.t R) (sample_rate : R) :
  design_peaking_eq (cut_of band) sample_rate
  = swap_coefficients (design_peaking_eq band sample_rate).
Proof.
  destruct band as [f g q [|]]; [|reflexivity].
  unfold cut_of. cbn [EQBand.frequency EQBand.gain_db EQBand.q EQBand.enabled].
  rewrite !design_enabled_eq. cbv zeta. unfold swap_coefficients. cbn [fst snd].
  rewrite cookbook_A_opposite.
  unfold cookbook_b, cookbook_a. cbn [fadd fsub fmul fdiv of_Z arith].
  unfold Rdiv. rewrite Rinv_inv. reflexivity.
Qed.

(** X8.  The constructor normalizes: in real arithmetic two coefficient
    sets that differ by a common non-zero factor build the same filter
    (and raise the same error when they are rejected), provided [a0] is
    not zero. *)
Theorem init_ignores_common_factor (b a : list R) (channels : Z) (k : R) :
  k <> 0 ->
  nth 0 a 0 <> 0 ->
  BiquadFilter.init (scaled k b) (scaled k a) channels
  = BiquadFilter.init b a channels.
Proof.
  intros Hk Ha0. unfold BiquadFilter.init, scaled.
  destruct (channels <? 1)%Z; [done|].
  destruct b as [|b0 [|b1 [|b2 [|]]]]; try done.
  destruct a as [|a0 [|a1 [|a2 [|]]]]; try done.
  cbn [map nth] in *. cbn [fmul fdiv arith].
  unfold ret. f_equal. f_equal; field; done.
Qed.
End Ideal_design.

(** ** [process_block]: the returned array *)

Section EngineOutput.
Context {F : Type} `{ArithLaws F}.

Lemma clip_gives_clipped_sample (x : F) :
  clipped_sample (np_clip x (of_Z (-1)) (of_Z 1)).
Proof.
  destruct (is_nan x) eqn:Hx.
  - left. unfold np_clip, np_max, np_min. by rewrite Hx, Hx.
  - right. apply np_clip_within; [done|]. apply fltb_asym, fltb_m1_1.
Qed.

Lemma clip_array_clipped (a : ndarray F) :
  Forall clipped_sample (flat (clip_array a (of_Z (-1)) (of_Z 1))).
Proof.
  unfold clip_array. rewrite flat_amap. apply Forall_map, Forall_forall.
  intros x _. apply clip_gives_clipped_sample.
Qed.

Lemma cascade_shape (fs : list (BiquadFilter.t F)) h l arr p a h' fs' :
  EQFilterChain.cascade fs h l arr = (inr (p, a), h', fs') ->
  shape a = shape arr /\ dtype_of a = dtype_of arr.
Proof.
  revert h l arr h' fs'. induction fs as [|f fs IH]; intros h l arr h' fs';
    cbn [EQFilterChain.cascade].
  - by intros [= _ <- _ _].
  - destruct (BiquadFilter.process f arr) as [e|[y f']] eqn:Hp; [done|].
    unfold alloc.
    destruct (EQFilterChain.cascade fs (h ++ [y]) (length h) y)
      as [[r1 h1] fs1] eqn:Hc.
    intros [= -> _ _].
    destruct (IH _ _ _ _ _ Hc) as [Hs Hd].
    destruct (process_shape f arr y f' Hp)
      as (dt & cols & rows & yrows & -> & -> & Hlen & _).
    destruct (map_length_shape dt cols rows yrows Hlen) as [Hshape _].
    split; [by rewrite Hs|by rewrite Hd].
Qed.

(** What a successful [process_block] leaves in the store: the array
    [parr] that was scaled in place at [processed], and its clipped copy
    at the end. *)
Lemma process_block_returns (e : EQEngine.t F) h l arr p h' e' :
  h !! l = Some arr ->
  EQEngine.process_block e h l = Some (ret p, h', e') ->
  exists h1 processed parr,
    h' = <[processed := imul parr (EQEngine._output_gain e)]> h1
         ++ [clip_array (imul parr (EQEngine._output_gain e)) (of_Z (-1)) (of_Z 1)] /\
    p = length h1 /\ (length h <= length h1)%nat /\
    shape parr = shape arr /\ dtype_of parr = dtype_of arr.
Proof.
  intros Hl. unfold EQEngine.process_block. rewrite Hl. intros [= Hpb].
  unfold EQEngine.process_block_at in Hpb.
  destruct (negb (ndim arr =? 2)%nat || _); [done|].
  destruct (EQEngine.bypass e).
  - simpl in Hpb. injection Hpb as <- <- <-.
    exists (h ++ [arr]), (length h), arr.
    rewrite length_insert, !length_app. simpl. repeat split; lia.
  - destruct (EQFilterChain.process (EQEngine._chain e) h l arr)
      as [[r1 h1] c1] eqn:Hc.
    destruct r1 as [err|[processed parr]]; [done|].
    simpl in Hpb. injection Hpb as <- <- <-.
    exists h1, processed, parr. rewrite length_insert.
    rewrite process_as_cascade in Hc.
    destruct (EQFilterChain.cascade _ h l arr) as [[r2 h2] fs2] eqn:Hcas.
    injection Hc as -> -> _.
    destruct (cascade_frame _ _ _ _ _ _ _ Hcas) as (_ & [ext ->] & _ & _).
    destruct (cascade_shape _ _ _ _ _ _ _ _ Hcas) as [Hs Hd].
    rewrite length_app. repeat split; (done || lia).
Qed.

(** X9.  The array [process_block] returns is always a new one, never the
    caller's block nor any array that existed before the call, and every
    sample in it is a NaN or lies within [[-1, 1]]. *)
Theorem process_block_output_clipped (e : EQEngine.t F) h l arr p h' e' :
  h !! l = Some arr ->
  EQEngine.process_block e h l = Some (ret p, h', e') ->
  (length h <= p)%nat /\ p <> l /\
  exists out, h' !! p = Some out /\ Forall clipped_sample (flat out).
Proof.
  intros Hl Hpb.
  assert (Hlt : (l < length h)%nat) by (by eapply lookup_lt_Some).
  destruct (process_block_returns e h l arr p h' e' Hl Hpb)
    as (h1 & processed & parr & -> & -> & Hlen & _).
  split; [done|]. split; [lia|].
  eexists. split.
  - rewrite lookup_app_r by (rewrite length_insert; lia).
    rewrite length_insert, Nat.sub_diag. reflexivity.
  - apply clip_array_clipped.
Qed.

(** X10.  The array [process_block] returns has the shape and the dtype
    of the block, in every mode. *)
Theorem process_block_keeps_shape (e : EQEngine.t F) h l arr p h' e' :
  h !! l = Some arr ->
  EQEngine.process_block e h l = Some (ret p, h', e') ->
  exists out, h' !! p = Some out /\
              shape out = shape arr /\ dtype_of out = dtype_of arr.
Proof.
  intros Hl Hpb.
  destruct (process_block_returns e h l arr p h' e' Hl Hpb)
    as (h1 & processed & parr & -> & -> & Hlen & Hs & Hd).
  eexists. split.
  - rewrite lookup_app_r by (rewrite length_insert; lia).
    rewrite length_insert, Nat.sub_diag. reflexivity.
  - unfold clip_array, imul. by rewrite !shape_amap, !dtype_amap.
Qed.
End EngineOutput.

Section EmptyChain.
Context {F : Type} `{Arith F}.

Lemma shape_test_false (e : EQEngine.t F) arr :
  ~ bad_shape e arr ->
  negb (ndim arr =? 2)%nat
  || negb (Z.of_nat (EQEngine.shape1 arr) =? EQEngine.channels e) = false.
Proof.
  intros Hgood. destruct (negb _ || _) eqn:Htest; [|done].
  by apply shape_test in Htest.
Qed.

(** X11.  An engine without filters and with bypass off returns the same
    samples and meters the same levels as with bypass on: the block times
    the output gain, clipped.  What differs is the caller's block: with
    bypass on it is left as it was, with bypass off it holds the block
    times the output gain after the call. *)
Theorem empty_chain_acts_as_bypass (e : EQEngine.t F) h l arr :
  h !! l = Some arr ->
  ~ bad_shape e arr ->
  EQFilterChain._filters (EQEngine._chain e) = [] ->
  let scaled := imul arr (EQEngine._output_gain e) in
  let out := clip_array scaled (of_Z (-1)) (of_Z 1) in
  let levels := MeterSnapshot.mk (rms arr) (rms scaled) in
  exists p1 h1 e1 p2 h2 e2,
    EQEngine.process_block (EQEngine.set_bypass e false) h l
      = Some (ret p1, h1, e1) /\
    EQEngine.process_block (EQEngine.set_bypass e true) h l
      = Some (ret p2, h2, e2) /\
    h1 !! p1 = Some out /\ h2 !! p2 = Some out /\
    EQEngine._meter e1 = levels /\ EQEngine._meter e2 = levels /\
    h1 !! l = Some scaled /\ h2 !! l = Some arr.
Proof.
  intros Hl Hshape Hfs scaled out levels.
  assert (Hlt : (l < length h)%nat) by (by eapply lookup_lt_Some).
  unfold EQEngine.process_block. rewrite Hl.
  unfold EQEngine.process_block_at.
  change (EQEngine.channels (EQEngine.set_bypass e false)) with (EQEngine.channels e).
  change (EQEngine.channels (EQEngine.set_bypass e true)) with (EQEngine.channels e).
  rewrite (shape_test_false e arr Hshape).
  cbn [EQEngine.bypass EQEngine.set_bypass EQEngine._chain EQEngine._output_gain].
  unfold EQFilterChain.process. rewrite Hfs. cbn [alloc].
  fold scaled. fold out.
  eexists _, _, _, _, _, _.
  split; [reflexivity|]. split; [reflexivity|].
  refine (conj _ (conj _ (conj eq_refl (conj eq_refl (conj _ _))))).
  - rewrite lookup_app_r by (rewrite length_insert; lia).
    by rewrite length_insert, Nat.sub_diag.
  - rewrite lookup_app_r by (rewrite length_insert, length_app; simpl; lia).
    by rewrite length_insert, Nat.sub_diag.
  - rewrite lookup_app_l by (rewrite length_insert; lia).
    by apply list_lookup_insert_eq.
  - rewrite lookup_app_l by (rewrite length_insert, length_app; simpl; lia).
    rewrite list_lookup_insert_ne by lia. by rewrite lookup_app_l.
Qed.
End EmptyChain.

(** ** Decibels *)

Section DecibelFloor.
Context {F : Type} `{ArithLaws F} `{MeterMath F}.

(** X12.  [linear_to_db] never returns a value below the floor, and
    returns the floor itself for every level that is [<= 0]. *)
Theorem linear_to_db_floor (value floor : F) :
  (linear_to_db value floor <? floor)%fl = false /\
  (fleb value (of_Z 0) = true -> linear_to_db value floor = floor).
Proof.
  unfold linear_to_db. split.
  - destruct (fleb value (of_Z 0)); [apply fltb_irrefl|apply py_max_floor].
  - by intros ->.
Qed.
End DecibelFloor.

Module Ideal_decibels.
Import Ideal Ideal_meter.
Local Open Scope R_scope.

Lemma Rleb_false x y : Rleb x y = false <-> y < x.
Proof. unfold Rleb. destruct (Rle_dec x y); split; (done || lra). Qed.

Lemma ln_10_pos : 0 < ln 10.
Proof. rewrite <- ln_1. apply ln_increasing; lra. Qed.

Lemma log10_of_gain (g : R) : 20 * (ln (Rpower 10 (g / 20)) / ln 10) = g.
Proof.
  unfold Rpower. rewrite ln_exp. pose proof ln_10_pos. field. lra.
Qed.

(** X13.  Decibels to linear and back.  In real arithmetic the linear
    gain [set_output_gain] stores is positive, and [linear_to_db] of it
    with the default floor is the gain in dB that was set, for every gain
    of at least -120 dB; for a lower gain it is the floor, -120. *)
Theorem gain_db_round_trip (e : EQEngine.t R) (gain_db : R) :
  let e' := EQEngine.set_output_gain e gain_db in
  0 < EQEngine._output_gain e' /\
  EQEngine.output_gain_db e' = gain_db /\
  (-120 <= gain_db ->
   linear_to_db (EQEngine._output_gain e') default_floor = gain_db) /\
  (gain_db < -120 ->
   linear_to_db (EQEngine._output_gain e') default_floor = -120).
Proof.
  intros e'. subst e'. cbn [EQEngine.set_output_gain EQEngine._output_gain
                            EQEngine.output_gain_db].
  cbn [fpow fdiv of_Z libm arith].
  assert (Hpos : 0 < Rpower 10 (gain_db / 20)) by (unfold Rpower; apply exp_pos).
  refine (conj Hpos (conj eq_refl _)).
  unfold linear_to_db, default_floor, py_max.
  cbn [fleb flog10 meter_math fmul fltb of_Z arith].
  rewrite (proj2 (Rleb_false _ _) Hpos), log10_of_gain.
  unfold Rltb. split; intros Hg; destruct (Rlt_dec (-120) gain_db); lra.
Qed.
End Ideal_decibels.

(** ** Metering, in real arithmetic *)

Module Ideal_rms.
Import Ideal.
Local Open Scope R_scope.

Lemma sum_of_squares_from dt (xs : list R) (acc : R) :
  fold_left (fun acc x => (acc + cast dt (x * x))%fl) xs acc
  = acc + sum_of_squares dt xs.
Proof.
  unfold sum_of_squares. revert acc.
  induction xs as [|x xs IH]; intros acc; cbn [fold_left].
  - cbn [of_Z arith]. lra.
  - rewrite IH, (IH (of_Z 0 + _)%fl).
    cbn [fadd of_Z arith]. lra.
Qed.

Lemma sum_of_squares_cons dt (x : R) xs :
  sum_of_squares dt (x :: xs) = x * x + sum_of_squares dt xs.
Proof.
  unfold sum_of_squares at 1. cbn [fold_left]. rewrite sum_of_squares_from.
  replace (cast dt (x * x)%fl) with (x * x) by (by destruct dt).
  cbn [fadd of_Z arith]. lra.
Qed.

Lemma sum_of_squares_nonneg dt (xs : list R) : 0 <= sum_of_squares dt xs.
Proof.
  induction xs as [|x xs IH]; [unfold sum_of_squares; simpl; lra|].
  rewrite sum_of_squares_cons. nra.
Qed.

Lemma sum_of_squares_scaled dt (g : R) (xs : list R) :
  sum_of_squares dt (map (fun x => x * g) xs) = g * g * sum_of_squares dt xs.
Proof.
  induction xs as [|x xs IH]; [unfold sum_of_squares; simpl; lra|].
  cbn [map]. rewrite !sum_of_squares_cons, IH. ring.
Qed.

Lemma rms_as_formula (a : ndarray R) :
  rms a = sqrt (sum_of_squares (dtype_of a) (flat a) / INR (size a)).
Proof.
  unfold rms. destruct (size a =? 0)%nat eqn:Hsize.
  - apply Nat.eqb_eq in Hsize. rewrite Hsize. simpl.
    unfold Rdiv. rewrite Rinv_0, Rmult_0_r. symmetry. apply sqrt_0.
  - unfold np_mean64, np_square.
    rewrite flat_amap, size_amap, fold_left_fadd_map.
    cbn [fsqrt fdiv of_Z arith]. by rewrite <- INR_IZR_INZ.
Qed.

(** X14.  The level scales with the gain: in real arithmetic the RMS of a
    block multiplied in place by [g] is [|g|] times the RMS of the block,
    so that in bypass the output level is the input level times the
    linear output gain. *)
Theorem rms_scales_with_gain (a : ndarray R) (g : R) :
  rms (imul a g) = Rabs g * rms a.
Proof.
  rewrite !rms_as_formula. unfold imul.
  rewrite flat_amap, size_amap, dtype_amap.
  rewrite (map_ext _ (fun x => x * g)) by (intros x; by destruct (dtype_of a)).
  rewrite sum_of_squares_scaled.
  replace (g * g * sum_of_squares (dtype_of a) (flat a) / INR (size a))
    with (g * g * (sum_of_squares (dtype_of a) (flat a) / INR (size a)))
    by (unfold Rdiv; ring).
  rewrite sqrt_mult_alt by nra.
  f_equal. replace (g * g) with (g²) by (unfold Rsqr; ring). apply sqrt_Rsqr_abs.
Qed.
End Ideal_rms.

(** ** The status queue of the audio backend *)

Section QueueProps.
Import StatusQueue.

Lemma last_n_short {A : Type} (n : nat) (l : list A) :
  (length l <= n)%nat -> last_n n l = l.
Proof.
  intros Hl. unfold last_n. replace (length l - n)%nat with 0%nat by lia.
  reflexivity.
Qed.

Lemma last_n_length {A : Type} (n : nat) (l : list A) :
  length (last_n n l) = Nat.min n (length l).
Proof. unfold last_n. rewrite length_skipn. lia. Qed.

Lemma last_n_snoc {A : Type} (n : nat) (l : list A) (x : A) :
  (1 <= n)%nat -> last_n n (last_n n l ++ [x]) = last_n n (l ++ [x]).
Proof.
  intros Hn. destruct (decide (length l <= n)%nat) as [Hl|Hl].
  - by rewrite (last_n_short n l).
  - unfold last_n at 1 3. rewrite !length_app, last_n_length. simpl.
    unfold last_n.
    replace (Nat.min n (length l) + 1 - n)%nat with 1%nat by lia.
    rewrite !skipn_app, length_skipn, skipn_skipn.
    replace (1 - (length l - (length l - n)))%nat with 0%nat by lia.
    replace (length l + 1 - n - length l)%nat with 0%nat by lia.
    simpl. f_equal. f_equal. lia.
Qed.

Lemma put_status_items (q : t) (message : string) :
  0 < maxsize q ->
  (Z.of_nat (length (items q)) <= maxsize q) ->
  put_status q message
  = mk (maxsize q) (last_n (Z.to_nat (maxsize q)) (items q ++ [message])).
Proof.
  intros Hm Hl. unfold put_status, put_nowait, get_nowait, qsize.
  destruct (maxsize q <=? Z.of_nat (length (items q))) eqn:Hfull.
  - apply Z.leb_le in Hfull.
    replace (0 <? maxsize q) with true by (symmetry; by apply Z.ltb_lt).
    simpl. destruct (items q) as [|x rest] eqn:Hi; simpl in *; [lia|].
    replace (maxsize q <=? Z.of_nat (length rest)) with false
      by (symmetry; apply Z.leb_gt; lia).
    rewrite andb_false_r. f_equal. unfold last_n. simpl. rewrite length_app. simpl.
    replace (S (length rest + 1) - Z.to_nat (maxsize q))%nat with 1%nat by lia.
    reflexivity.
  - apply Z.leb_gt in Hfull. rewrite andb_false_r.
    f_equal. rewrite last_n_short; [done|]. rewrite length_app. simpl. lia.
Qed.

Lemma put_all_items (n : nat) (messages old : list string) :
  (1 <= n)%nat ->
  fold_left put_status messages (mk (Z.of_nat n) (last_n n old))
  = mk (Z.of_nat n) (last_n n (old ++ messages)).
Proof.
  intros Hn. revert old. induction messages as [|m ms IH]; intros old.
  - by rewrite app_nil_r.
  - cbn [fold_left]. rewrite put_status_items; cbn [maxsize items].
    + rewrite Nat2Z.id, (last_n_snoc n old m Hn), IH.
      by rewrite <- app_assoc.
    + lia.
    + rewrite last_n_length. lia.
Qed.

Lemma poll_loop_drains (fuel : nat) (m : Z) (queued messages : list string) :
  (length queued < fuel)%nat ->
  poll_loop fuel (mk m queued) messages = Some (messages ++ queued, mk m []).
Proof.
  revert queued messages. induction fuel as [|fuel IH]; intros queued messages Hl;
    [lia|].
  destruct queued as [|x rest]; simpl in *.
  - by rewrite app_nil_r.
  - unfold get_nowait. simpl. rewrite IH by lia. by rewrite <- app_assoc.
Qed.

(** X15.  [_put_status] on a bounded queue that is not over-full never
    raises and never blocks: the message becomes the newest entry, and
    when the queue was full the oldest entry, and only that one, is
    dropped; the entries kept stay in order and the bound is respected. *)
Theorem put_status_drops_oldest (q : t) (message : string) :
  0 < maxsize q ->
  Z.of_nat (length (items q)) <= maxsize q ->
  maxsize (put_status q message) = maxsize q /\
  items (put_status q message)
  = (if decide (Z.of_nat (length (items q)) < maxsize q) then items q
     else tail (items q)) ++ [message] /\
  Z.of_nat (length (items (put_status q message))) <= maxsize q.
Proof.
  intros Hm Hl. rewrite put_status_items by done. cbn [maxsize items].
  split; [done|]. split.
  - destruct (decide _) as [Hlt|Hge].
    + apply last_n_short. rewrite length_app. simpl. lia.
    + destruct (items q) as [|x rest]; simpl in *; [lia|].
      unfold last_n. simpl. rewrite length_app. simpl.
      replace (S (length rest + 1) - Z.to_nat (maxsize q))%nat with 1%nat by lia.
      reflexivity.
  - rewrite last_n_length. lia.
Qed.

(** X16.  After any sequence of messages is put into an empty queue of
    capacity [n] (32 in the backend), [poll_status] terminates, returns
    the last [n] of them, oldest first, and leaves the queue empty. *)
Theorem poll_status_returns_latest (n fuel : nat) (messages : list string) :
  (1 <= n)%nat ->
  (n < fuel)%nat ->
  poll_status fuel (fold_left put_status messages (mk (Z.of_nat n) []))
  = Some (last_n n messages, mk (Z.of_nat n) []).
Proof.
  intros Hn Hfuel.
  change (mk (Z.of_nat n) []) with (mk (Z.of_nat n) (last_n n [])) at 1.
  rewrite put_all_items by done. simpl.
  unfold poll_status. rewrite poll_loop_drains; [done|].
  rewrite last_n_length. lia.
Qed.
End QueueProps.

(** ** The audio backend and its engine *)

Section BackendSettings.
Context {F : Type} `{ArithLaws F} `{Libm F}.






End BackendSettings.

(** ** The audio callback *)

Section CallbackFrame.
Context {F : Type} `{Arith F} `{Libm F}.


End CallbackFrame.

Section CallbackSilence.
Context {F : Type} `{Arith F} `{Libm F}.

Lemma engine_after_status (self : AudioBackend.t F) (status : option string) :
  AudioBackend._engine
    match status with
    | Some s => AudioBackend._put_status self ("Audio callback status: " ++ s)
    | None => self
    end
  = AudioBackend._engine self.
Proof. by destruct status. Qed.

(** X20.  Without an engine, and with an engine that rejects the shape
    of [indata], the callback does not raise: it fills [outdata] with
    zeros, keeping its shape and dtype, and leaves the engine as it was.
    The status queue receives the status message when there is a status,
    and then, when it was the engine that rejected the block, the text of
    the error after [Processing error: ]. *)
Theorem callback_silence_on_failure (self : AudioBackend.t F) h indata outdata
    status in_arr out_arr :
  h !! indata = Some in_arr ->
  h !! outdata = Some out_arr ->
  match AudioBackend._engine self with
  | None => True
  | Some e => bad_shape e in_arr
  end ->
  exists self',
    AudioBackend._callback self h indata outdata status
    = Some (<[outdata := AudioBackend.fill_zero out_arr]> (h ++ [in_arr]), self') /\
    AudioBackend._engine self' = AudioBackend._engine self /\
    AudioBackend._status self'
    = fold_left StatusQueue.put_status
        (match status with
         | Some s => [("Audio callback status: " ++ s)%string]
         | None => []
         end
         ++ match AudioBackend._engine self with
            | Some _ => [("Processing error: " ++ msg_engine_shape)%string]
            | None => []
            end)
        (AudioBackend._status self).
Proof.
  intros Hin Hout Hbad.
  assert (Hlt : (outdata < length h)%nat) by (by eapply lookup_lt_Some).
  unfold AudioBackend._callback. rewrite Hin. cbn [alloc].
  rewrite engine_after_status.
  destruct (AudioBackend._engine self) as [e|] eqn:He.
  - unfold EQEngine.process_block_at.
    rewrite (proj2 (shape_test e in_arr) Hbad).
    unfold raise. rewrite lookup_app_l, Hout by done.
    eexists. split; [reflexivity|]. split; [done|].
    by destruct status.
  - rewrite lookup_app_l, Hout by done.
    eexists. split; [reflexivity|]. split.
    + by rewrite engine_after_status.
    + by destruct status.
Qed.
End CallbackSilence.

Section CallbackOutput.
Context {F : Type} `{ArithLaws F} `{Libm F}.


Lemma shape_astype dt (a : ndarray F) : shape (AudioBackend.astype dt a) = shape a.
Proof. destruct a; simpl; by rewrite length_map. Qed.

End CallbackOutput.

(** ** Test signals *)

Module Ideal_sine.
Import Ideal Ideal_signals.
Local Open Scope R_scope.

Lemma stack_same (wave : list R) :
  np_stack2 wave wave = Array2 Float64 2 (map (fun w => [w; w]) wave).
Proof.
  unfold np_stack2. f_equal.
  induction wave as [|w ws IH]; [done|]. simpl. by rewrite IH.
Qed.

(** X22.  Over the reals [sine_wave] returns [int(sample_rate * duration)]
    frames (none when that is not positive) of two equal channels in
    double precision; frame [i] holds
    [amplitude * sin(2 * pi * freq * (i / sample_rate))], so no sample
    exceeds [amplitude] in absolute value. *)
Theorem sine_wave_bounded_stereo (freq sample_rate duration amplitude : R) :
  exists wave : list R,
    sine_wave freq sample_rate duration amplitude
    = Some (Array2 Float64 2 (map (fun w => [w; w]) wave)) /\
    length wave = Z.to_nat (Rtrunc (sample_rate * duration)) /\
    (forall i : nat, (i < length wave)%nat ->
       wave !! i = Some (amplitude * sin (2 * PI * freq * (INR i / sample_rate)))) /\
    Forall (fun w => Rabs w <= Rabs amplitude) wave.
Proof.
  unfold sine_wave. cbn [to_int trunc].
  set (n := Rtrunc _).
  eexists. split; [by rewrite stack_same|].
  unfold np_arange. rewrite !length_map, length_seq.
  split; [done|]. split.
  - intros i Hi. rewrite !list_lookup_fmap, lookup_seq_lt by done.
    cbn. by rewrite INR_IZR_INZ.
  - rewrite !Forall_fmap. apply Forall_forall. intros i _. cbn.
    rewrite Rabs_mult. rewrite <- (Rmult_1_r (Rabs amplitude)) at 2.
    apply Rmult_le_compat_l; [apply Rabs_pos|].
    apply Rabs_le, SIN_bound.
Qed.
End Ideal_sine.

(** ** Further examples in IEEE arithmetic *)

Module IEEE_more.
Import Examples_IEEE.

(** Two frames through the filter [dyadic]. *)
Lemma process_keeps_shape_witness :
  exists out f',
    BiquadFilter.process dyadic (Array2 Float32 2 frames1) = ret (out, f') /\
    ndim (Array2 Float32 2 frames1) = 2%nat /\
    shape out = shape (Array2 Float32 2 frames1) /\
    dtype_of out = dtype_of (Array2 Float32 2 frames1) /\
    (wf_array (Array2 Float32 2 frames1) ->
     match out with
     | Array1 _ _ => False
     | Array2 _ cols yrows => Forall (fun row => length row = cols) yrows
     end) /\
    same_filter dyadic f' /\
    (wf_filter dyadic -> wf_filter f').
Proof.
  eexists _, _. split; [vm_compute; reflexivity|].
  apply (process_keeps_shape dyadic (Array2 Float32 2 frames1)).
  vm_compute; reflexivity.
Defined.

(** The second channel of two frames through [dyadic]. *)
Lemma process_channel_by_channel_witness :
  exists yrows f',
    BiquadFilter.process dyadic (Array2 Float32 2 frames1)
    = ret (Array2 Float32 2 yrows, f') /\
    Forall (fun row => length row = 2%nat) frames1 /\
    wf_filter dyadic /\
    let '(z1, z2) := registers (BiquadFilter.state dyadic) 1 in
    let '(outs, z) := BiquadFilter.run dyadic z1 z2 (BiquadFilter.column frames1 1) in
    BiquadFilter.column yrows 1 = map (cast Float32) outs /\
    registers (BiquadFilter.state f') 1 = round_registers z.
Proof.
  assert (Hrows : Forall (fun row : list spec_float => length row = 2%nat) frames1)
    by (repeat constructor).
  assert (Hwf : wf_filter dyadic) by reflexivity.
  eexists _, _. split; [vm_compute; reflexivity|].
  refine (conj Hrows (conj Hwf _)).
  apply (process_channel_by_channel dyadic Float32 2 frames1 _ _ 1%nat);
    [vm_compute; reflexivity|exact Hrows|exact Hwf|lia].
Defined.

(** No frame through [dyadic]. *)
Lemma process_no_frames_witness :
  Forall (fun z => round_registers z = z) (BiquadFilter.state dyadic) /\
  BiquadFilter.process dyadic (Array2 Float32 2 []) = ret (Array2 Float32 2 [], dyadic).
Proof.
  assert (Hst : Forall (fun z : spec_float * spec_float => round_registers z = z)
                       (BiquadFilter.state dyadic))
    by (repeat constructor).
  exact (conj Hst (process_no_frames dyadic Float32 2 eq_refl Hst)).
Defined.
End IEEE_more.

(** ** Examples of the status queue *)

Module Queue_examples.
Import StatusQueue.
Local Open Scope string_scope.

(** A third message into a full queue of two. *)
Lemma put_status_drops_oldest_witness :
  maxsize (put_status (mk 2 ["a"; "b"]) "c") = 2 /\
  items (put_status (mk 2 ["a"; "b"]) "c") = ["b"; "c"] /\
  Z.of_nat (length (items (put_status (mk 2 ["a"; "b"]) "c"))) <= 2.
Proof.
  apply (put_status_drops_oldest (mk 2 ["a"; "b"]) "c"); simpl; lia.
Defined.

(** Three messages into an empty queue of two, then a poll. *)
Lemma poll_status_returns_latest_witness :
  poll_status 3 (fold_left put_status ["a"; "b"; "c"] (mk 2 []))
  = Some (["b"; "c"], mk 2 []).
Proof.
  apply (poll_status_returns_latest 2 3 ["a"; "b"; "c"]); lia.
Defined.
End Queue_examples.

(** ** Further examples in real arithmetic *)

Module Ideal_more.
Import Ideal Ideal_meter Examples_Ideal Examples_backend.
Local Open Scope R_scope.



(** Setting the bands [band] and [muted] twice. *)
Lemma set_bands_again_witness :
  EQFilterChain.set_bands retuned (EQFilterChain.bands retuned) = (ret tt, retuned).
Proof.
  assert (Hch : (1 <= EQFilterChain.channels (EQFilterChain.init (F:=R) 48000%R 2))%Z)
    by (simpl; lia).
  exact (set_bands_again (F:=R) (EQFilterChain.init 48000 2) retuned [band; muted]
           Hch (chain_set_bands_ok (F:=R) (EQFilterChain.init 48000 2) [band; muted] Hch)).
Defined.

(** The coefficients of [band] and ten times these. *)
Lemma init_ignores_common_factor_witness :
  BiquadFilter.init (scaled 10 [11; 0; -9]) (scaled 10 [11 / 10; 0; 9 / 10]) 2
  = BiquadFilter.init [11; 0; -9] [11 / 10; 0; 9 / 10] 2.
Proof.
  apply (Ideal_design.init_ignores_common_factor [11; 0; -9] [11 / 10; 0; 9 / 10] 2 10).
  - lra.
  - simpl. lra.
Defined.

(** One frame through the engine [tuned]. *)
Lemma process_block_output_clipped_witness :
  exists p h' e',
    EQEngine.process_block tuned [frame] 0%nat = Some (ret p, h', e') /\
    (length [frame] <= p)%nat /\ p <> 0%nat /\
    exists out, h' !! p = Some out /\ Forall clipped_sample (flat out).
Proof.
  eexists _, _, _. split; [reflexivity|].
  exact (process_block_output_clipped tuned [frame] 0%nat frame _ _ _ eq_refl eq_refl).
Defined.

Lemma process_block_keeps_shape_witness :
  exists p h' e',
    EQEngine.process_block tuned [frame] 0%nat = Some (ret p, h', e') /\
    exists out, h' !! p = Some out /\
                shape out = shape frame /\ dtype_of out = dtype_of frame.
Proof.
  eexists _, _, _. split; [reflexivity|].
  exact (process_block_keeps_shape tuned [frame] 0%nat frame _ _ _ eq_refl eq_refl).
Defined.

(** One frame through the engine [engine], which has no filter. *)
Lemma empty_chain_acts_as_bypass_witness :
  let scaled := imul frame (EQEngine._output_gain engine) in
  let out := clip_array scaled (of_Z (-1)) (of_Z 1) in
  let levels := MeterSnapshot.mk (rms frame) (rms scaled) in
  exists p1 h1 e1 p2 h2 e2,
    EQEngine.process_block (EQEngine.set_bypass engine false) [frame] 0%nat
      = Some (ret p1, h1, e1) /\
    EQEngine.process_block (EQEngine.set_bypass engine true) [frame] 0%nat
      = Some (ret p2, h2, e2) /\
    h1 !! p1 = Some out /\ h2 !! p2 = Some out /\
    EQEngine._meter e1 = levels /\ EQEngine._meter e2 = levels /\
    h1 !! 0%nat = Some scaled /\ h2 !! 0%nat = Some frame.
Proof.
  exact (empty_chain_acts_as_bypass engine [frame] 0%nat frame
           eq_refl Ideal_examples.frame_shape_ok eq_refl).
Defined.




(** A callback with the one-dimensional block [mono] as input. *)
Lemma callback_silence_on_failure_witness :
  exists self',
    AudioBackend._callback backend [mono; buffer] 0%nat 1%nat None
    = Some (<[1%nat := AudioBackend.fill_zero buffer]> ([mono; buffer] ++ [mono]), self') /\
    AudioBackend._engine self' = AudioBackend._engine backend /\
    AudioBackend._status self'
    = fold_left StatusQueue.put_status
        ([] ++ match AudioBackend._engine backend with
               | Some _ => [("Processing error: " ++ msg_engine_shape)%string]
               | None => []
               end)
        (AudioBackend._status backend).
Proof.
  refine (callback_silence_on_failure backend [mono; buffer] 0%nat 1%nat None
            mono buffer eq_refl eq_refl _).
  left. simpl. lia.
Defined.

End Ideal_more.
